(** * burgerbae_mapped2.py: the crawl loop, the link classifier and the
      storage-folder naming, embedded in Rocq.

    Python [str] values are modelled by [string] (the UTF-8 bytes of the text,
    so that [url.encode()] is the identity); [set] is [gset], the
    [defaultdict(set)] of the crawl graph is a [gmap] to [gset], the [deque]
    is a [list] used from its head.  The browser (Playwright) is the outside
    world: each of its calls may raise, and what a page answers is a
    parameter of one loop iteration. *)

From Stdlib Require Import ZArith String Ascii List Bool Lia.
From stdpp Require Import gmap strings list relations sorting.
Import ListNotations.

Local Open Scope string_scope.
Local Open Scope list_scope.

(** ** Python string methods used by the source *)

Module PyStr.

(** [s.lstrip(c)] for a one-character [c]. *)
Fixpoint lstrip (c : ascii) (s : string) : string :=
  match s with
  | String a s' => if Ascii.eqb a c then lstrip c s' else s
  | EmptyString => EmptyString
  end.

(** [s.rstrip(c)] for a one-character [c]. *)
Fixpoint rstrip (c : ascii) (s : string) : string :=
  match s with
  | String a s' =>
      match rstrip c s' with
      | EmptyString => if Ascii.eqb a c then EmptyString else String a EmptyString
      | r => String a r
      end
  | EmptyString => EmptyString
  end.

(** [s.strip(c)]: both ends. *)
Definition strip (c : ascii) (s : string) : string := rstrip c (lstrip c s).

(** [s.replace(a, b)] for one-character [a] and [b]. *)
Fixpoint replace (a b : ascii) (s : string) : string :=
  match s with
  | String x s' => String (if Ascii.eqb x a then b else x) (replace a b s')
  | EmptyString => EmptyString
  end.

(** [x or y] on strings: the empty string is falsy. *)
Definition or_else (x y : string) : string :=
  match x with EmptyString => y | _ => x end.

(** [c in s]. *)
Fixpoint contains (c : ascii) (s : string) : bool :=
  match s with
  | String a s' => Ascii.eqb a c || contains c s'
  | EmptyString => false
  end.

(** The longest prefix of [s] with no character satisfying [p], and the rest
    (which starts at the first such character, when there is one). *)
Fixpoint break (p : ascii -> bool) (s : string) : string * string :=
  match s with
  | String a s' =>
      if p a then (EmptyString, s)
      else let '(l, r) := break p s' in (String a l, r)
  | EmptyString => (EmptyString, EmptyString)
  end.

(** [s.split(c, 1)] when [c in s]: the text before the first [c] and the
    text after it. *)
Definition split1 (c : ascii) (s : string) : string * string :=
  let '(l, r) := break (fun a => Ascii.eqb a c) s in
  (l, match r with String _ r' => r' | EmptyString => EmptyString end).

(** [s.lower()] on ASCII letters. *)
Definition lower_char (a : ascii) : ascii :=
  let n := nat_of_ascii a in
  if (65 <=? n)%nat && (n <=? 90)%nat then ascii_of_nat (n + 32) else a.

Fixpoint lower (s : string) : string :=
  match s with
  | String a s' => String (lower_char a) (lower s')
  | EmptyString => EmptyString
  end.

Fixpoint all (p : ascii -> bool) (s : string) : bool :=
  match s with
  | String a s' => p a && all p s'
  | EmptyString => true
  end.

Fixpoint remove (p : ascii -> bool) (s : string) : string :=
  match s with
  | String a s' => if p a then remove p s' else String a (remove p s')
  | EmptyString => EmptyString
  end.


End PyStr.

(** ** [urllib.parse.ParseResult] *)

Record ParseResult := mkParseResult {
  scheme : string;
  netloc : string;
  path : string;
  params : string;
  query : string;
  fragment : string
}.

(** ** [hashlib.sha256]

    The digest (FIPS 180-4) on 32-bit words kept in [Z], each addition
    followed by its reduction modulo 2^32.  The crawler's theorems take the
    digest as a parameter; this definition is the one the worked examples
    run. *)

Module Sha256.

Local Open Scope Z_scope.

Definition w32 (x : Z) : Z := x mod 2^32.
Definition rotr (n x : Z) : Z := Z.lor (Z.shiftr x n) (w32 (Z.shiftl x (32 - n))).
Definition ch (x y z : Z) : Z := Z.lxor (Z.land x y) (Z.land (Z.lxor x (2^32 - 1)) z).
Definition maj (x y z : Z) : Z := Z.lxor (Z.lxor (Z.land x y) (Z.land x z)) (Z.land y z).
Definition bsig0 (x : Z) : Z := Z.lxor (Z.lxor (rotr 2 x) (rotr 13 x)) (rotr 22 x).
Definition bsig1 (x : Z) : Z := Z.lxor (Z.lxor (rotr 6 x) (rotr 11 x)) (rotr 25 x).
Definition ssig0 (x : Z) : Z := Z.lxor (Z.lxor (rotr 7 x) (rotr 18 x)) (Z.shiftr x 3).
Definition ssig1 (x : Z) : Z := Z.lxor (Z.lxor (rotr 17 x) (rotr 19 x)) (Z.shiftr x 10).

(** The round constants and the initial hash value are, as the standard
    defines them, the first 32 bits of the fractional parts of the cube
    roots of the first 64 primes and of the square roots of the first 8. *)

Definition is_prime (n : nat) : bool :=
  forallb (fun d => negb (n mod d =? 0)%nat) (seq 2 (n - 2)).

Definition primes (count : nat) : list Z :=
  map Z.of_nat (firstn count (List.filter is_prime (seq 2 400))).

(** The integer cube root, one bit at a time from bit [n - 1] down. *)
Fixpoint cbrt_bits (n : nat) (x r : Z) : Z :=
  match n with
  | O => r
  | S n' =>
      let r' := r + 2 ^ Z.of_nat n' in
      cbrt_bits n' x (if r' * r' * r' <=? x then r' else r)
  end.

Definition frac_cbrt (p : Z) : Z := w32 (cbrt_bits 40 (p * 2 ^ 96) 0).
Definition frac_sqrt (p : Z) : Z := w32 (Z.sqrt (p * 2 ^ 64)).

Definition K : list Z := Eval vm_compute in map frac_cbrt (primes 64).

Definition H0 : list Z := Eval vm_compute in map frac_sqrt (primes 8).

Definition bytes_of (s : string) : list Z :=
  map (fun c => Z.of_nat (nat_of_ascii c)) (list_ascii_of_string s).

(** The [n] low bytes of [x], most significant first. *)
Fixpoint be_bytes (n : nat) (x : Z) : list Z :=
  match n with
  | O => []
  | S n' => be_bytes n' (Z.shiftr x 8) ++ [x mod 256]
  end.

Definition pad (msg : list Z) : list Z :=
  let len := Z.of_nat (length msg) in
  msg ++ [0x80] ++ repeat 0 (Z.to_nat ((55 - len) mod 64)) ++ be_bytes 8 (8 * len).

Fixpoint words (n : nat) (bs : list Z) : list Z :=
  match n, bs with
  | S n', b0 :: b1 :: b2 :: b3 :: rest =>
      (Z.shiftl b0 24 + Z.shiftl b1 16 + Z.shiftl b2 8 + b3) :: words n' rest
  | _, _ => []
  end.

(** The message schedule, newest word first. *)
Fixpoint schedule (n : nat) (rw : list Z) : list Z :=
  match n with
  | O => rw
  | S n' =>
      schedule n'
        (w32 (ssig1 (nth 1 rw 0) + nth 6 rw 0 + ssig0 (nth 14 rw 0) + nth 15 rw 0) :: rw)
  end.

Definition round (st : list Z) (kw : Z * Z) : list Z :=
  match st with
  | [a; b; c; d; e; f; g; h] =>
      let t1 := h + bsig1 e + ch e f g + fst kw + snd kw in
      let t2 := bsig0 a + maj a b c in
      [w32 (t1 + t2); a; b; c; w32 (d + t1); e; f; g]
  | _ => st
  end.

Definition compress (h : list Z) (block : list Z) : list Z :=
  let w := rev (schedule 48 (rev (words 16 block))) in
  map (fun p => w32 (fst p + snd p)) (combine h (fold_left round (combine K w) h)).

Fixpoint blocks (n : nat) (bs : list Z) : list (list Z) :=
  match n with
  | O => []
  | S n' =>
      match bs with
      | [] => []
      | _ => firstn 64 bs :: blocks n' (skipn 64 bs)
      end
  end.

Definition digest (msg : list Z) : list Z :=
  let p := pad msg in fold_left compress (blocks (length p) p) H0.

Definition hex_digit (d : Z) : ascii :=
  ascii_of_nat (Z.to_nat (if d <? 10 then 48 + d else 87 + d)).

Fixpoint hex (n : nat) (x : Z) : string :=
  match n with
  | O => EmptyString
  | S n' => (hex n' (Z.shiftr x 4) ++ String (hex_digit (x mod 16)) EmptyString)%string
  end.

(** [hashlib.sha256(data).hexdigest()]. *)
Definition hexdigest (s : string) : string :=
  fold_right (fun w acc => (hex 8 w ++ acc)%string) EmptyString (digest (bytes_of s)).

End Sha256.

(** ** [urllib.parse.urlparse]

    CPython's [urlsplit] followed by [urlparse]'s split of the parameters.
    [None] is the [ValueError] ("Invalid IPv6 URL") raised for an authority
    with an unmatched square bracket.  The further validation CPython runs
    on a host inside matched brackets and on a non-ASCII authority is not
    part of this definition, which the examples below apply to plain ASCII
    addresses only; the crawler's theorems take the parser as a parameter. *)

Module UrlParse.

Definition is_c0_or_space (a : ascii) : bool := (nat_of_ascii a <=? 32)%nat.

Definition is_unsafe (a : ascii) : bool :=
  let n := nat_of_ascii a in (n =? 9)%nat || (n =? 13)%nat || (n =? 10)%nat.

Definition is_alpha (a : ascii) : bool :=
  let n := nat_of_ascii a in
  ((65 <=? n)%nat && (n <=? 90)%nat) || ((97 <=? n)%nat && (n <=? 122)%nat).

Definition is_digit (a : ascii) : bool :=
  let n := nat_of_ascii a in (48 <=? n)%nat && (n <=? 57)%nat.

Definition scheme_char (a : ascii) : bool :=
  is_alpha a || is_digit a || Ascii.eqb a "+" || Ascii.eqb a "-" || Ascii.eqb a ".".

Definition uses_params : list string :=
  [""; "ftp"; "hdl"; "prospero"; "http"; "imap"; "https"; "shttp"; "rtsp"; "rtspu";
   "sip"; "sips"; "mms"; "sftp"; "tel"].

Fixpoint lstrip_c0 (s : string) : string :=
  match s with
  | String a s' => if is_c0_or_space a then lstrip_c0 s' else s
  | EmptyString => EmptyString
  end.

(** The scheme and what follows its colon, or no scheme and the whole text. *)
Definition split_scheme (url : string) : string * string :=
  match url with
  | String a _ =>
      if PyStr.contains ":" url && is_alpha a then
        let '(pre, post) := PyStr.split1 ":" url in
        if PyStr.all scheme_char pre then (PyStr.lower pre, post) else (EmptyString, url)
      else (EmptyString, url)
  | EmptyString => (EmptyString, url)
  end.

Definition is_delim (a : ascii) : bool :=
  Ascii.eqb a "/" || Ascii.eqb a "?" || Ascii.eqb a "#".

(** [_splitnetloc(url, 2)] under the test [url[:2] == '//']. *)
Definition split_netloc (url : string) : string * string :=
  match url with
  | String "/" (String "/" rest) => PyStr.break is_delim rest
  | _ => (EmptyString, url)
  end.

Definition brackets_ok (nl : string) : bool :=
  Bool.eqb (PyStr.contains "[" nl) (PyStr.contains "]" nl).

(** [_splitparams]: the parameters follow the first semicolon of the last
    path segment. *)
Fixpoint last_segment (s : string) : string * string :=
  match s with
  | String a s' =>
      let '(h, t) := last_segment s' in
      if PyStr.contains "/" s then
        if PyStr.contains "/" s' then (String a h, t) else
          if Ascii.eqb a "/" then (EmptyString, s) else (String a h, t)
      else (EmptyString, s)
  | EmptyString => (EmptyString, EmptyString)
  end.

Definition splitparams (url : string) : string * string :=
  let '(h, t) := last_segment url in
  if PyStr.contains ";" t then
    let '(p, q) := PyStr.split1 ";" t in ((h ++ p)%string, q)
  else (url, EmptyString).

Definition urlparse (url0 : string) : option ParseResult :=
  let url := PyStr.remove is_unsafe (lstrip_c0 url0) in
  let '(sch, url) := split_scheme url in
  let '(nl, url) := split_netloc url in
  if negb (brackets_ok nl) then None else
  let '(url, frag) :=
    if PyStr.contains "#" url then PyStr.split1 "#" url else (url, EmptyString) in
  let '(url, qry) :=
    if PyStr.contains "?" url then PyStr.split1 "?" url else (url, EmptyString) in
  let '(url, prm) :=
    if existsb (String.eqb sch) uses_params && PyStr.contains ";" url
    then splitparams url else (url, EmptyString) in
  Some (mkParseResult sch nl url prm qry frag).

End UrlParse.

(** ** The outside world: the browser

    Every call into Playwright, and the two helpers that write files, may
    raise.  A [page] says which calls raise for one page and what its two
    DOM queries return. *)

Inductive call :=
| NewPage              (* context.new_page() *)
| Goto                 (* page.goto(url, timeout=60000) *)
| WaitForLoadState     (* page.wait_for_load_state("networkidle", ...) *)
| Content              (* page.content() *)
| SaveHtml             (* save_html: os.makedirs, open, write *)
| QueryImages          (* eval_on_selector_all("img[src]", ...) *)
| QueryLinks           (* eval_on_selector_all("a[href]", ...) in extract_images_and_links *)
| AppendToCsv          (* append_to_csv *)
| QueryInternalLinks   (* eval_on_selector_all("a[href]", ...) in extract_internal_links *)
| Close.               (* page.close() *)

Record page := mkPage {
  raises : call -> bool;
  img_src : list string;
  a_href : list string
}.

(** What the run does to the outside, in order. *)
Inductive event :=
| Visiting (url : string)                       (* print "[+] Visiting: ..." *)
| Opened (url : string)                         (* new_page() returned a page *)
| Navigate (url : string)                       (* page.goto(url) is called *)
| IdleTimeout                                   (* print "Network idle wait timed out ..." *)
| SavedHtml (folder : string)                   (* save_html wrote the markup *)
| CsvRows (url : string) (images links : list string)
| Closed (url : string)                         (* page.close() returned *)
| ErrorVisiting (url : string).                 (* print "[!] Error visiting ..." *)

#[global] Instance call_eq_dec : EqDecision call.
Proof. solve_decision. Defined.

#[global] Instance event_eq_dec : EqDecision event.
Proof. solve_decision. Defined.

(** ** The state of [crawl_site]: its two locals, the module-level
    [graph_edges], and the trace of effects. *)

Record state := mkState {
  visited : gset string;
  queue : list string;
  graph_edges : gmap string (gset string);
  log : list event
}.

(** ** Statements that mutate the state and may raise.

    The second component is [None] when an exception propagates; the state
    reached so far is kept, as in Python. *)

Definition M (A : Type) : Type := state -> state * option A.

#[global] Instance M_ret : MRet M := fun A x s => (s, Some x).

#[global] Instance M_bind : MBind M := fun A B f m s =>
  match m s with
  | (s', Some a) => f a s'
  | (s', None) => (s', None)
  end.

Definition raise {A : Type} : M A := fun s => (s, None).

(** [try: body  except Exception: handler] *)
Definition try_except {A : Type} (body handler : M A) : M A := fun s =>
  match body s with
  | (s', None) => handler s'
  | r => r
  end.

Definition lift {A : Type} (o : option A) : M A :=
  match o with Some a => mret a | None => raise end.

Fixpoint for_each {A : Type} (l : list A) (body : A -> M unit) : M unit :=
  match l with
  | [] => mret tt
  | x :: l' => body x ;; for_each l' body
  end.

Definition emit (e : event) : M unit := fun s =>
  (mkState (visited s) (queue s) (graph_edges s) (log s ++ [e]), Some tt).

Definition ext (pg : page) (c : call) : M unit :=
  if raises pg c then raise else mret tt.

(** [queue.popleft()]; IndexError on an empty deque. *)
Definition popleft : M string := fun s =>
  match queue s with
  | url :: q => (mkState (visited s) q (graph_edges s) (log s), Some url)
  | [] => (s, None)
  end.

(** [queue.append(link)] *)
Definition append (link : string) : M unit := fun s =>
  (mkState (visited s) (queue s ++ [link]) (graph_edges s) (log s), Some tt).

(** [graph_edges[url].add(link)] on a [defaultdict(set)]. *)
Definition add_edge (url link : string) : M unit := fun s =>
  (mkState (visited s) (queue s)
     (<[url := {[link]} ∪ default ∅ (graph_edges s !! url)]> (graph_edges s)) (log s),
   Some tt).

Definition get_visited : M (gset string) := fun s => (s, Some (visited s)).

(** ** Readings of the trace *)

(** The addresses the renderer was sent to, in order. *)
Definition navigations (l : list event) : list string :=
  omap (fun e => match e with Navigate u => Some u | _ => None end) l.

(** The addresses whose processing was started, in order. *)
Definition visit_order (l : list event) : list string :=
  omap (fun e => match e with Visiting u => Some u | _ => None end) l.

(** The pages opened, and the pages closed, in order. *)
Definition opened (l : list event) : list string :=
  omap (fun e => match e with Opened u => Some u | _ => None end) l.

Definition closed (l : list event) : list string :=
  omap (fun e => match e with Closed u => Some u | _ => None end) l.

(** The addresses for which "[!] Error visiting" was printed, in order. *)
Definition errors (l : list event) : list string :=
  omap (fun e => match e with ErrorVisiting u => Some u | _ => None end) l.

Definition is_none {A : Type} (o : option A) : bool :=
  match o with None => true | Some _ => false end.

(** === CONFIG === *)

Definition START_URL : string := "https://www.burgerbaeclothing.com/".
Definition OUTPUT_ROOT : string := "burgerbae_mapped2".
Definition MAX_PAGES : nat := 20.

(** [os.path.join(a, b)] for a relative [b] and an [a] without a final
    slash, which is how the crawler calls it. *)
Definition os_path_join (a b : string) : string := a ++ "/" ++ b.

Module Crawl.

Section Crawler.

Variable sha256_hexdigest : string -> string.
Variable urlparse : string -> option ParseResult.

(** === HELPERS === *)

Definition sanitize_folder_name (url : string) : option string :=
  parsed ← urlparse url;
  let path := PyStr.strip "/" (path parsed) in
  let folder_name := PyStr.or_else (PyStr.replace "/" "_" path) "index" in
  Some folder_name.

Definition is_internal_link (base_url link_url : string) : option bool :=
  b ← urlparse base_url;
  l ← urlparse link_url;
  Some (bool_decide (netloc b = netloc l)).

(** [[link for link in links if is_internal_link(base_url, link)]] *)
Fixpoint internal_links (base_url : string) (links : list string) : option (list string) :=
  match links with
  | [] => Some []
  | link :: rest =>
      keep ← is_internal_link base_url link;
      kept ← internal_links base_url rest;
      Some (if keep : bool then link :: kept else kept)
  end.

Definition extract_internal_links (base_url : string) (pg : page) : M (list string) :=
  ext pg QueryInternalLinks ;;
  lift (internal_links base_url (a_href pg)).

Definition extract_images_and_links (pg : page) : M (list string * list string) :=
  ext pg QueryImages ;;
  ext pg QueryLinks ;;
  mret (img_src pg, a_href pg).

Definition save_html (pg : page) (folder : string) : M unit :=
  ext pg SaveHtml ;;
  emit (SavedHtml folder).

Definition append_to_csv (pg : page) (page_url : string) (images links : list string) : M unit :=
  ext pg AppendToCsv ;;
  emit (CsvRows page_url images links).

Definition hash_url (url : string) : string := sha256_hexdigest url.

(** === MAIN CRAWLER === *)

(** [visited.add(hash_url(url))] *)
Definition mark_visited (url : string) : M unit := fun s =>
  (mkState ({[hash_url url]} ∪ visited s) (queue s) (graph_edges s) (log s), Some tt).

(** The body of [for link in new_links]. *)
Definition discover (url link : string) : M unit :=
  add_edge url link ;;
  v ← get_visited;
  if bool_decide (hash_url link ∈ v) then mret tt else append link.

Variable start_url : string.

(** The body of the [try] block of one iteration. *)
Definition visit (pg : page) (url : string) : M unit :=
  emit (Visiting url) ;;
  ext pg NewPage ;;
  emit (Opened url) ;;
  emit (Navigate url) ;;
  ext pg Goto ;;
  try_except (ext pg WaitForLoadState) (emit IdleTimeout) ;;
  folder_name ← lift (sanitize_folder_name url);
  let folder_path := os_path_join OUTPUT_ROOT folder_name in
  ext pg Content ;;
  save_html pg folder_path ;;
  '(images, links) ← extract_images_and_links pg;
  append_to_csv pg url images links ;;
  new_links ← extract_internal_links start_url pg;
  for_each new_links (discover url) ;;
  mark_visited url ;;
  ext pg Close ;;
  emit (Closed url).

(** One iteration of the [while] loop; [browser url] is the page the
    browser serves for [url] in this iteration. *)
Definition loop_body (browser : string -> page) : M unit :=
  url ← popleft;
  v ← get_visited;
  if bool_decide (hash_url url ∈ v) then mret tt
  else try_except (visit (browser url) url) (emit (ErrorVisiting url)).

(** [while queue and len(visited) < MAX_PAGES] *)
Definition loop_cond (s : state) : bool :=
  bool_decide (queue s ≠ []) && bool_decide (size (visited s) < MAX_PAGES).

(** [visited = set(); queue = deque([start_url])], with the module's
    [graph_edges] still empty. *)
Definition init : state := mkState ∅ [start_url] ∅ [].

(** The crawl as a transition system: one transition per loop iteration,
    for whatever the browser answers. *)
Inductive step : state -> state -> Prop :=
| step_iteration (s : state) (browser : string -> page) :
    loop_cond s = true -> step s (fst (loop_body browser s)).

Definition reachable (s : state) : Prop := rtc step init s.

(** The first [n] iterations of the loop, the browser of the [i]-th
    iteration being [world i]; fewer when the loop exits earlier. *)
Fixpoint iterate (n : nat) (world : nat -> string -> page) (s : state) : state :=
  match n with
  | O => s
  | S n' =>
      if loop_cond s
      then iterate n' (fun i => world (S i)) (fst (loop_body (world O) s))
      else s
  end.

(** [crawl_site(start_url)], with [fuel] bounding the iterations: the state
    in which the loop exits, [None] when it is still running. *)
Definition crawl_site (fuel : nat) (world : nat -> string -> page) : option state :=
  let s := iterate fuel world init in
  if loop_cond s then None else Some s.

(** ** What one visit amounts to

    [fails_early pg url]: the [try] block raises before its [for] loop, in
    one of the browser calls, in [sanitize_folder_name] or in the
    classification of the links.  [links_of pg] are the links the loop then
    runs over. *)

Definition fails_early (pg : page) (url : string) : bool :=
  raises pg NewPage || raises pg Goto || is_none (sanitize_folder_name url)
  || raises pg Content || raises pg SaveHtml || raises pg QueryImages || raises pg QueryLinks
  || raises pg AppendToCsv || raises pg QueryInternalLinks
  || is_none (internal_links start_url (a_href pg)).

Definition links_of (pg : page) : list string :=
  default [] (internal_links start_url (a_href pg)).

(** The links the [for] loop appends to the queue, and the graph it leaves. *)
Definition enqueue_new (v : gset string) (links : list string) : list string :=
  filter (fun link => hash_url link ∉ v) links.

Definition add_edges (url : string) (links : list string)
    (g : gmap string (gset string)) : gmap string (gset string) :=
  foldl (fun g link => <[url := {[link]} ∪ default ∅ (g !! url)]> g) g links.

(** [url] is classified internal relative to the seed. *)
Definition in_scope (url : string) : Prop :=
  is_internal_link start_url url = Some true.

(** Every source and every destination of the graph is in scope. *)
Definition graph_in_scope (g : gmap string (gset string)) : Prop :=
  forall src dsts, g !! src = Some dsts -> in_scope src /\ forall d, d ∈ dsts -> in_scope d.

(** How often the renderer was sent to an address with fingerprint [h]. *)
Definition fingerprint_renders (h : string) (l : list event) : nat :=
  length (filter (fun u => hash_url u = h) (navigations l)).

End Crawler.

End Crawl.

Import Crawl.

(** ** Worked scenarios, on the real digest and parser *)

Module Scenario.

Definition home : string := START_URL.
Definition shirts : string := "https://www.burgerbaeclothing.com/collections/shirts".
Definition shirts_slash : string := "https://www.burgerbaeclothing.com/collections/shirts/".
Definition pants : string := "https://www.burgerbaeclothing.com/collections/pants".
Definition polo : string := "https://www.burgerbaeclothing.com/products/polo".
Definition elsewhere : string := "https://www.instagram.com/burgerbae/".

(** A page on which every call returns, with the given anchors. *)
Definition serves (links : list string) : page := mkPage (fun _ => false) [] links.

(** A page whose navigation raises (a timeout, a DNS error). *)
Definition unreachable : page := mkPage (fun c => bool_decide (c = Goto)) [] [].

Definition run (n : nat) (world : nat -> string -> page) : state :=
  iterate Sha256.hexdigest UrlParse.urlparse START_URL n world (init START_URL).

(** The home page links twice to a page that cannot be loaded. *)
Definition broken_link_world : nat -> string -> page := fun _ url =>
  if String.eqb url home then serves [shirts; shirts] else unreachable.

(** The home page cannot be loaded. *)
Definition offline_world : nat -> string -> page := fun _ _ => unreachable.

(** The home page links to itself. *)
Definition self_link_world : nat -> string -> page := fun _ _ => serves [home].

(** home -> shirts, (another site), pants; shirts -> polo. *)
Definition shop_world : nat -> string -> page := fun _ url =>
  if String.eqb url home then serves [shirts; elsewhere; pants]
  else if String.eqb url shirts then serves [polo]
  else serves [].

(** A catalogue of [n] product pages, all linked from the home page. *)
Definition product (i : nat) : string :=
  "https://www.burgerbaeclothing.com/products/" ++ String (ascii_of_nat (65 + i)) "".

Definition catalogue_world (n : nat) : nat -> string -> page := fun _ url =>
  if String.eqb url home then serves (map product (seq 0 n)) else serves [].

End Scenario.

(** ** The files the helpers write *)

(** [os.path] on POSIX. *)
Module PosixPath.

(** [os.path.basename(p)]: what follows the last slash. *)
Fixpoint basename (p : string) : string :=
  match p with
  | String a p' =>
      if PyStr.contains "/" p' then basename p'
      else if Ascii.eqb a "/" then p' else p
  | EmptyString => EmptyString
  end.

(** [s.endswith(c)] for a one-character [c]. *)
Fixpoint endswith (c : ascii) (s : string) : bool :=
  match s with
  | String a EmptyString => Ascii.eqb a c
  | String _ s' => endswith c s'
  | EmptyString => false
  end.

(** [s.startswith(c)] for a one-character [c]. *)
Definition startswith (c : ascii) (s : string) : bool :=
  match s with
  | String a _ => Ascii.eqb a c
  | EmptyString => false
  end.

(** [os.path.join(a, b)]. *)
Definition join (a b : string) : string :=
  if startswith "/" b then b
  else
    match a with
    | EmptyString => b
    | _ => if endswith "/" a then (a ++ b)%string else (a ++ "/" ++ b)%string
    end.

End PosixPath.

(** The path [save_html(folder, html)] opens for writing. *)
Definition html_file_path (folder : string) : string :=
  PosixPath.join folder (PosixPath.basename folder ++ ".html")%string.

(** The extraction log as the rows written to it. *)
Module Csv.

Definition header : list string := ["Page URL"; "Image SRC"; "Link HREF"].

(** [append_to_csv] on the content of the file: [None] when the file does
    not exist yet, else the rows it holds.  The two [for] loops write one
    row per image and then one per link. *)
Definition append_to_csv (file : option (list (list string)))
    (page_url : string) (images links : list string) : list (list string) :=
  let write_header := is_none file in
  default [] file ++
  (if write_header then [header] else []) ++
  map (fun img => [page_url; img; ""]) images ++
  map (fun href => [page_url; ""; href]) links.

(** The rows of one call that are not the header. *)
Definition data_rows (call : string * list string * list string) : list (list string) :=
  let '(page_url, images, links) := call in
  map (fun img => [page_url; img; ""]) images ++
  map (fun href => [page_url; ""; href]) links.

(** The file after a sequence of calls. *)
Definition append_all (file : option (list (list string)))
    (calls : list (string * list string * list string)) : option (list (list string)) :=
  foldl (fun f call =>
           let '(page_url, images, links) := call in
           Some (append_to_csv f page_url images links)) file calls.

End Csv.

(** ** [draw_crawl_graph]: the graph built and the nodes labelled

    [edges] are the pairs [(src, dst)] in the order in which the two [for]
    loops over [graph_data] reach them (the order of a Python set is not
    fixed, so any order is covered).  [nx.DiGraph] keeps its nodes in the
    order of their first appearance and each edge once. *)

Module Draw.

(** The elements of [l] in the order of their first occurrence. *)
Fixpoint first_seen (seen l : list string) : list string :=
  match l with
  | [] => []
  | x :: l' =>
      if decide (x ∈ seen) then first_seen seen l'
      else x :: first_seen (x :: seen) l'
  end.

(** [list(G.nodes)] *)
Definition nodes (edges : list (string * string)) : list string :=
  first_seen [] (flat_map (fun e => [fst e; snd e]) edges).

(** [G.degree(n)]: the edges out of [n] plus the edges into [n]. *)
Definition degree (edges : list (string * string)) (n : string) : nat :=
  let E : gset (string * string) := list_to_set edges in
  size (filter (fun e => fst e = n) E) + size (filter (fun e => snd e = n) E).

(** [sorted(l, key=key, reverse=True)]: the sort is stable, equal keys
    stay in the order of [l]. *)
Fixpoint insert_desc (key : string -> nat) (x : string) (l : list string) : list string :=
  match l with
  | [] => [x]
  | y :: l' => if (key y <=? key x)%nat then x :: l else y :: insert_desc key x l'
  end.

Definition sorted_desc (key : string -> nat) (l : list string) : list string :=
  foldr (insert_desc key) [] l.

(** [top_nodes = sorted(degrees, key=degrees.get, reverse=True)[:max_labels]] *)
Definition top_nodes (edges : list (string * string)) (max_labels : nat) : list string :=
  take max_labels (sorted_desc (degree edges) (nodes edges)).

End Draw.

(** A digit or a letter from a to f. *)
Definition is_lower_hex (c : ascii) : bool := PyStr.contains c "0123456789abcdef".

(** The graph the crawl of the shop leaves, as [draw_crawl_graph] may
    enumerate it. *)
Definition shop_edges : list (string * string) :=
  [(Scenario.home, Scenario.shirts); (Scenario.home, Scenario.pants);
   (Scenario.shirts, Scenario.polo)].

(** * Facts *)

(** ** Stripping slashes *)

Module PyStrFacts.
Import PyStr.







End PyStrFacts.

(** ** The crawler *)

Section Facts.

Context (sha : string -> string) (urlparse : string -> option ParseResult).
Context (start_url : string).

Local Abbreviation hash_url := (hash_url sha).
Local Abbreviation sanitize_folder_name := (sanitize_folder_name urlparse).
Local Abbreviation is_internal_link := (is_internal_link urlparse).
Local Abbreviation internal_links := (internal_links urlparse).
Local Abbreviation discover := (discover sha).
Local Abbreviation visit := (visit sha urlparse start_url).
Local Abbreviation loop_body := (loop_body sha urlparse start_url).
Local Abbreviation fails_early := (fails_early urlparse start_url).
Local Abbreviation links_of := (links_of urlparse start_url).
Local Abbreviation enqueue_new := (enqueue_new sha).
Local Abbreviation in_scope := (in_scope urlparse start_url).
Local Abbreviation graph_in_scope := (graph_in_scope urlparse start_url).
Local Abbreviation fingerprint_renders := (fingerprint_renders sha).
Local Abbreviation step := (step sha urlparse start_url).
Local Abbreviation reachable := (reachable sha urlparse start_url).
Local Abbreviation iterate := (iterate sha urlparse start_url).

(** *** The [for] loop over the new links *)

Lemma enqueue_new_visited v l links :
  hash_url l ∈ v -> enqueue_new v (l :: links) = enqueue_new v links.
Proof.
  intros H. unfold Crawl.enqueue_new. rewrite filter_cons_False; [done|]. auto.
Qed.

Lemma enqueue_new_fresh v l links :
  hash_url l ∉ v -> enqueue_new v (l :: links) = l :: enqueue_new v links.
Proof. intros H. unfold Crawl.enqueue_new. by rewrite filter_cons_True. Qed.

Lemma enqueue_new_spec v links l :
  l ∈ enqueue_new v links <-> (hash_url l ∉ v) /\ l ∈ links.
Proof. unfold Crawl.enqueue_new. by rewrite list_elem_of_filter. Qed.

Lemma add_edges_cons url l links g :
  add_edges url (l :: links) g =
  add_edges url links (<[url := {[l]} ∪ default ∅ (g !! url)]> g).
Proof. reflexivity. Qed.

Lemma for_each_discover url links s :
  for_each links (discover url) s =
  (mkState (visited s) (queue s ++ enqueue_new (visited s) links)
     (add_edges url links (graph_edges s)) (log s), Some tt).
Proof.
  revert s. induction links as [|l links IH]; intros s.
  - destruct s. cbn. by rewrite app_nil_r.
  - rewrite add_edges_cons. cbn [for_each].
    unfold mbind, M_bind at 1. unfold Crawl.discover at 1.
    unfold mbind, M_bind, add_edge, get_visited, append, mret, M_ret.
    cbn [visited queue graph_edges log].
    destruct (decide (hash_url l ∈ visited s)) as [Hv|Hv].
    + rewrite bool_decide_true, enqueue_new_visited by done. by rewrite IH.
    + rewrite bool_decide_false, enqueue_new_fresh by done. rewrite IH.
      cbn [visited queue graph_edges log]. by rewrite <- app_assoc.
Qed.

(** *** One visit, call by call *)

Ltac unfold_visit :=
  unfold Crawl.visit, save_html, append_to_csv, extract_images_and_links,
    extract_internal_links, mbind, M_bind, emit, ext, try_except, lift,
    mark_visited, raise, mret, M_ret.

Ltac crunch :=
  cbn [fst snd visited queue graph_edges log orb andb negb is_none default].

Ltac on_raise pg c := destruct (raises pg c) eqn:?; crunch.

Ltac close_log :=
  eexists; split; [rewrite <- ?app_assoc; cbn [app]; reflexivity | by cbn].

Ltac finish := repeat split; try done; close_log.

Lemma visit_spec pg url s :
  let s' := fst (visit pg url s) in
  visited s' = (if fails_early pg url then visited s else {[hash_url url]} ∪ visited s) /\
  queue s' = (if fails_early pg url then queue s
              else queue s ++ enqueue_new (visited s) (links_of pg)) /\
  graph_edges s' = (if fails_early pg url then graph_edges s
                    else add_edges url (links_of pg) (graph_edges s)) /\
  snd (visit pg url s) = (if fails_early pg url || raises pg Close then None else Some tt) /\
  exists evs,
    log s' = log s ++ Visiting url :: evs /\
    visit_order evs = [] /\
    errors evs = [] /\
    navigations evs = (if raises pg NewPage then [] else [url]) /\
    opened evs = (if raises pg NewPage then [] else [url]) /\
    closed evs = (if fails_early pg url || raises pg Close then [] else [url]).
Proof.
  unfold Crawl.fails_early, Crawl.links_of. unfold_visit. crunch.
  on_raise pg NewPage; [finish|].
  on_raise pg Goto; [finish|].
  on_raise pg WaitForLoadState;
    (destruct (sanitize_folder_name url) eqn:?; crunch; [|finish];
     on_raise pg Content; [finish|];
     on_raise pg SaveHtml; [finish|];
     on_raise pg QueryImages; [finish|];
     on_raise pg QueryLinks; [finish|];
     on_raise pg AppendToCsv; [finish|];
     on_raise pg QueryInternalLinks; [finish|];
     destruct (internal_links start_url (a_href pg)) eqn:?; crunch; [|finish];
     rewrite for_each_discover; crunch;
     on_raise pg Close; finish).
Qed.

(** *** One iteration of the loop *)

Lemma loop_body_unfold browser s url q :
  queue s = url :: q ->
  loop_body browser s =
  (if bool_decide (hash_url url ∈ visited s) then mret tt
   else try_except (visit (browser url) url) (emit (ErrorVisiting url)))
    (mkState (visited s) q (graph_edges s) (log s)).
Proof.
  intros Hq. unfold Crawl.loop_body, popleft, get_visited, mbind, M_bind.
  by rewrite Hq.
Qed.

(** The head of the queue is already visited: it is dropped, nothing else
    happens. *)
Lemma loop_body_skip browser s url q :
  queue s = url :: q -> hash_url url ∈ visited s ->
  loop_body browser s = (mkState (visited s) q (graph_edges s) (log s), Some tt).
Proof.
  intros Hq Hv. rewrite (loop_body_unfold _ _ _ _ Hq). by rewrite bool_decide_true.
Qed.

(** The head of the queue is not visited yet: it is processed. *)
Lemma loop_body_visit browser s url q :
  queue s = url :: q -> hash_url url ∉ visited s ->
  let pg := browser url in
  let s' := fst (loop_body browser s) in
  snd (loop_body browser s) = Some tt /\
  visited s' = (if fails_early pg url then visited s else {[hash_url url]} ∪ visited s) /\
  queue s' = (if fails_early pg url then q
              else q ++ enqueue_new (visited s) (links_of pg)) /\
  graph_edges s' = (if fails_early pg url then graph_edges s
                    else add_edges url (links_of pg) (graph_edges s)) /\
  exists evs,
    log s' = log s ++ Visiting url :: evs /\
    visit_order evs = [] /\
    errors evs = (if fails_early pg url || raises pg Close then [url] else []) /\
    navigations evs = (if raises pg NewPage then [] else [url]) /\
    opened evs = (if raises pg NewPage then [] else [url]) /\
    closed evs = (if fails_early pg url || raises pg Close then [] else [url]).
Proof.
  intros Hq Hv. cbv zeta. rewrite (loop_body_unfold _ _ _ _ Hq).
  rewrite bool_decide_false by done. unfold try_except.
  pose proof (visit_spec (browser url) url (mkState (visited s) q (graph_edges s) (log s)))
    as (Hvis & Hque & Hgr & Hres & evs & Hlog & Hord & Herr & Hnav & Hop & Hcl).
  destruct (visit (browser url) url _) as [s1 r].
  cbn [fst snd visited queue graph_edges log] in *. subst r.
  destruct (fails_early (browser url) url || raises (browser url) Close) eqn:Hfail.
  - unfold emit. cbn [fst snd visited queue graph_edges log].
    repeat split; try done.
    exists (evs ++ [ErrorVisiting url]). rewrite Hlog.
    unfold visit_order, errors, navigations, opened, closed in *.
    rewrite !omap_app, Hord, Herr, Hnav, Hop, Hcl, <- app_assoc. cbn.
    rewrite !app_nil_r. done.
  - cbn [fst snd]. repeat split; try done. by exists evs.
Qed.

Lemma loop_body_returns browser s :
  loop_cond s = true -> snd (loop_body browser s) = Some tt.
Proof.
  intros Hc. apply andb_true_iff in Hc as [Hq _]. apply bool_decide_eq_true in Hq.
  destruct (queue s) as [|url q] eqn:E; [done|].
  destruct (decide (hash_url url ∈ visited s)) as [Hv|Hv].
  - by rewrite (loop_body_skip _ _ _ _ E Hv).
  - by destruct (loop_body_visit browser _ _ _ E Hv) as [? _].
Qed.

(** *** The link classifier *)


Lemma is_internal_link_refl base_url link_url b :
  is_internal_link base_url link_url = Some b ->
  is_internal_link base_url base_url = Some true.
Proof.
  unfold Crawl.is_internal_link.
  destruct (urlparse base_url) as [r|]; [|done]. intros _. cbn.
  by rewrite bool_decide_true.
Qed.

Lemma internal_links_spec base_url links kept :
  internal_links base_url links = Some kept ->
  forall l, l ∈ kept -> is_internal_link base_url l = Some true.
Proof.
  revert kept. induction links as [|x links IH]; intros kept; cbn.
  - intros [= <-] l Hl. by apply not_elem_of_nil in Hl.
  - destruct (is_internal_link base_url x) as [keep|] eqn:Hx; [|done]. cbn.
    destruct (internal_links base_url links) as [kept'|]; [|done]. cbn.
    intros [= <-] l Hl. destruct keep; [|by eapply IH].
    apply elem_of_cons in Hl as [->|Hl]; [done | by eapply IH].
Qed.

Lemma links_of_in_scope pg l : l ∈ links_of pg -> in_scope l.
Proof.
  unfold Crawl.links_of, Crawl.in_scope.
  destruct (internal_links start_url (a_href pg)) as [kept|] eqn:E; cbn.
  - by apply (internal_links_spec _ _ _ E).
  - intros Hl. by apply not_elem_of_nil in Hl.
Qed.

(** *** The storage folder *)


(** *** Failures *)

(** C9: when processing raises before the loop over the links, the
    iteration only removes the address from the queue: the visited set and
    the graph are as before and nothing is appended, so the fingerprint is
    still unvisited. *)
Theorem early_failure_changes_nothing browser s url q :
  queue s = url :: q ->
  hash_url url ∉ visited s ->
  fails_early (browser url) url = true ->
  let s' := fst (loop_body browser s) in
  visited s' = visited s /\ graph_edges s' = graph_edges s /\ queue s' = q /\
  hash_url url ∉ visited s'.
Proof.
  intros Hq Hv Hf.
  destruct (loop_body_visit browser _ _ _ Hq Hv) as (_ & Hvis & Hque & Hgr & _).
  rewrite Hf in *. cbv zeta. rewrite Hvis, Hque, Hgr. done.
Qed.

(** C3 (as amended): when the processing of a dequeued address raises, the
    exception is caught and reported and the loop goes on with the rest of
    the queue; the address is marked visited only when the exception comes
    from the final [page.close()], and stays unvisited when it comes
    earlier. *)
Theorem failed_visit_is_caught browser s url q :
  queue s = url :: q ->
  hash_url url ∉ visited s ->
  snd (visit (browser url) url (mkState (visited s) q (graph_edges s) (log s))) = None ->
  let s' := fst (loop_body browser s) in
  snd (loop_body browser s) = Some tt /\
  url ∈ errors (log s') /\
  (exists new, queue s' = q ++ new) /\
  (hash_url url ∈ visited s' <-> fails_early (browser url) url = false).
Proof.
  intros Hq Hv Hraise.
  destruct (visit_spec (browser url) url (mkState (visited s) q (graph_edges s) (log s)))
    as (_ & _ & _ & Hres & _).
  rewrite Hraise in Hres.
  destruct (loop_body_visit browser _ _ _ Hq Hv)
    as (Hret & Hvis & Hque & _ & evs & Hlog & _ & Herr & _).
  destruct (fails_early (browser url) url || raises (browser url) Close) eqn:Hfail; [|done].
  cbv zeta. split; [done|]. split.
  { rewrite Hlog. unfold errors in *. rewrite omap_app. cbn. rewrite Herr.
    apply elem_of_app. right. by left. }
  rewrite Hvis, Hque. destruct (fails_early (browser url) url).
  - split; [exists []; by rewrite app_nil_r|]. split; [done|]. done.
  - split; [by eexists|]. split; [done|]. intros _. apply elem_of_union. left.
    by apply elem_of_singleton.
Qed.

(** *** The queue *)

(** C4 (as amended): a link is appended to the queue only when its
    fingerprint is not in the visited set at that moment; an address whose
    fingerprint is visited may still be in the queue (the page's link to
    itself, a link enqueued more than once), and such an entry is dropped
    when it is dequeued, without being processed. *)
Theorem frontier_dedup_at_dequeue browser s url q :
  queue s = url :: q ->
  let s' := fst (loop_body browser s) in
  (exists new, queue s' = q ++ new /\ forall l, l ∈ new -> hash_url l ∉ visited s) /\
  (hash_url url ∈ visited s -> s' = mkState (visited s) q (graph_edges s) (log s)).
Proof.
  intros Hq. cbv zeta.
  destruct (decide (hash_url url ∈ visited s)) as [Hv|Hv].
  - rewrite (loop_body_skip _ _ _ _ Hq Hv). cbn. split; [|done].
    exists []. rewrite app_nil_r. split; [done|]. intros l Hl. by apply not_elem_of_nil in Hl.
  - split; [|done].
    destruct (loop_body_visit browser _ _ _ Hq Hv) as (_ & _ & Hque & _).
    rewrite Hque. destruct (fails_early (browser url) url).
    + exists []. rewrite app_nil_r. split; [done|]. intros l Hl. by apply not_elem_of_nil in Hl.
    + eexists. split; [done|]. intros l Hl. by apply enqueue_new_spec in Hl as [? _].
Qed.

(** *** Reachable states *)

Lemma reachable_init : reachable (init start_url).
Proof. apply rtc_refl. Qed.

Lemma iterate_steps n world s : rtc step s (iterate n world s).
Proof.
  revert world s. induction n as [|n IH]; intros world s; cbn; [done|].
  destruct (loop_cond s) eqn:Hc; [|done].
  eapply rtc_l; [by apply step_iteration | apply IH].
Qed.

Lemma iterate_reachable n world : reachable (iterate n world (init start_url)).
Proof. apply iterate_steps. Qed.

(** Induction over the iterations made so far. *)
Lemma reachable_invariant (P : state -> Prop) :
  P (init start_url) ->
  (forall s browser, reachable s -> loop_cond s = true -> P s ->
     P (fst (loop_body browser s))) ->
  forall s, reachable s -> P s.
Proof.
  intros Hinit Hstep s Hr. unfold Crawl.reachable in Hr.
  revert s Hr. apply (rtc_ind_r (fun s => P s) (init start_url)); [exact Hinit|].
  intros s1 s2 Hr Hst IH. destruct Hst as [s browser Hc]. by apply Hstep.
Qed.

Lemma loop_cond_queue s :
  loop_cond s = true -> exists url q, queue s = url :: q.
Proof.
  intros Hc. apply andb_true_iff in Hc as [Hq _]. apply bool_decide_eq_true in Hq.
  destruct (queue s) as [|url q]; [done | by eauto].
Qed.

Lemma loop_cond_budget s : loop_cond s = true -> size (visited s) < MAX_PAGES.
Proof.
  intros Hc. apply andb_true_iff in Hc as [_ Hn]. by apply bool_decide_eq_true in Hn.
Qed.

(** An iteration adds at most one fingerprint, and removes none. *)
Lemma loop_body_visited browser s :
  loop_cond s = true ->
  let s' := fst (loop_body browser s) in
  visited s ⊆ visited s' /\ size (visited s') <= S (size (visited s)).
Proof.
  intros Hc. destruct (loop_cond_queue _ Hc) as (url & q & Hq). cbv zeta.
  destruct (decide (hash_url url ∈ visited s)) as [Hv|Hv].
  - rewrite (loop_body_skip _ _ _ _ Hq Hv). cbn. split; [done | lia].
  - destruct (loop_body_visit browser _ _ _ Hq Hv) as (_ & Hvis & _).
    rewrite Hvis. destruct (fails_early (browser url) url); [split; [done | lia]|].
    split; [apply union_subseteq_r|].
    rewrite size_union by (by apply disjoint_singleton_l).
    rewrite size_singleton. lia.
Qed.

(** *** The page budget *)

(** C2: in every state the loop reaches, the visited set has at most
    MAX_PAGES fingerprints, and in a state where it has MAX_PAGES the loop
    makes no further iteration, whatever the queue holds. *)
Theorem visited_within_budget s :
  reachable s ->
  size (visited s) <= MAX_PAGES /\
  (size (visited s) = MAX_PAGES -> loop_cond s = false /\ forall s', ~ step s s').
Proof.
  intros Hr. split.
  - revert s Hr. apply reachable_invariant; [cbn; rewrite size_empty; lia|].
    intros s browser _ Hc IH.
    pose proof (loop_cond_budget _ Hc).
    destruct (loop_body_visited browser _ Hc) as [_ Hsz]. lia.
  - intros Hfull.
    assert (loop_cond s = false) as Hc.
    { destruct (loop_cond s) eqn:Hc; [|done]. apply loop_cond_budget in Hc. lia. }
    split; [done|]. intros s' Hstep. destruct Hstep as [s browser Hc']. congruence.
Qed.

(** *** Scope *)

Lemma add_edges_in_scope url links g :
  (links <> [] -> in_scope url) ->
  (forall l, l ∈ links -> in_scope l) ->
  graph_in_scope g -> graph_in_scope (add_edges url links g).
Proof.
  revert g. induction links as [|l links IH]; intros g Hurl Hlinks Hg; [done|].
  rewrite add_edges_cons. apply IH.
  - intros _. by apply Hurl.
  - intros l' Hl'. apply Hlinks. by right.
  - intros src dsts. destruct (decide (url = src)) as [<-|Hne].
    + rewrite lookup_insert_eq. intros [= <-]. split; [by apply Hurl|].
      intros d [Hd|Hd]%elem_of_union.
      * apply elem_of_singleton in Hd as ->. apply Hlinks. by left.
      * destruct (g !! url) as [old|] eqn:E; cbn in Hd; [|set_solver].
        by apply (Hg _ _ E).
    + rewrite lookup_insert_ne by done. apply Hg.
Qed.

Lemma start_in_scope_of_link l : in_scope l -> in_scope start_url.
Proof. unfold Crawl.in_scope. apply is_internal_link_refl. Qed.

Lemma start_in_scope_of_link' l b :
  is_internal_link start_url l = Some b -> in_scope start_url.
Proof. unfold Crawl.in_scope. apply is_internal_link_refl. Qed.

(** C5: in every reachable state, each key and each destination of the
    crawl graph is classified internal relative to the seed, each queued
    address is the seed or is classified internal, and an address
    classified as not internal is neither queued nor in the graph. *)
Theorem crawl_graph_in_scope s :
  reachable s ->
  graph_in_scope (graph_edges s) /\
  (forall u, u ∈ queue s -> u = start_url \/ in_scope u) /\
  (forall u, is_internal_link start_url u = Some false ->
     (u ∉ queue s) /\ graph_edges s !! u = None /\
     forall src dsts, graph_edges s !! src = Some dsts -> u ∉ dsts).
Proof.
  intros Hr.
  assert (graph_in_scope (graph_edges s) /\
          forall u, u ∈ queue s -> u = start_url \/ in_scope u) as [Hg Hq].
  { revert s Hr. apply reachable_invariant.
    - split; [intros src dsts; cbn; by rewrite lookup_empty|].
      intros u Hu. left. by apply list_elem_of_singleton in Hu.
    - intros s1 browser _ Hc [Hg Hq].
      destruct (loop_cond_queue _ Hc) as (url & q & E).
      assert (forall u, u ∈ q -> u = start_url \/ in_scope u) as Hq'.
      { intros u Hu. apply Hq. rewrite E. by right. }
      destruct (decide (hash_url url ∈ visited s1)) as [Hv|Hv].
      { by rewrite (loop_body_skip _ _ _ _ E Hv). }
      destruct (loop_body_visit browser _ _ _ E Hv) as (_ & _ & Hque & Hgr & _).
      rewrite Hque, Hgr. destruct (fails_early (browser url) url); [done|]. split.
      + apply add_edges_in_scope; [| apply links_of_in_scope | done].
        intros Hne. destruct (Hq url) as [->|Hin]; [rewrite E; by left | | done].
        destruct (links_of (browser start_url)) as [|l ls] eqn:El; [done|].
        apply (start_in_scope_of_link l), (links_of_in_scope (browser start_url)).
        rewrite El. by left.
      + intros u [Hu|Hu]%elem_of_app; [by apply Hq'|]. right.
        apply enqueue_new_spec in Hu as [_ Hu]. by apply links_of_in_scope in Hu. }
  split; [done|]. split; [done|]. intros u Hu.
  assert (~ in_scope u) as Hout by (unfold Crawl.in_scope; congruence).
  assert (u <> start_url) as Hne.
  { intros ->. apply Hout. by eapply start_in_scope_of_link', Hu. }
  split; [|split].
  - intros Hin. by destruct (Hq _ Hin).
  - destruct (graph_edges s !! u) as [dsts|] eqn:E; [|done].
    by destruct (Hg _ _ E) as [? _].
  - intros src dsts E Hin. destruct (Hg _ _ E) as [_ Hd]. by apply Hout, Hd.
Qed.

(** *** Deduplication *)

Lemma fingerprint_renders_app h l1 l2 :
  fingerprint_renders h (l1 ++ l2) = fingerprint_renders h l1 + fingerprint_renders h l2.
Proof.
  unfold Crawl.fingerprint_renders, navigations.
  by rewrite omap_app, filter_app, length_app.
Qed.

(** An iteration sends the renderer to no address whose fingerprint is
    visited. *)
Lemma loop_body_renders browser s h :
  loop_cond s = true -> h ∈ visited s ->
  fingerprint_renders h (log (fst (loop_body browser s))) = fingerprint_renders h (log s).
Proof.
  intros Hc Hh. destruct (loop_cond_queue _ Hc) as (url & q & Hq).
  destruct (decide (hash_url url ∈ visited s)) as [Hv|Hv].
  - by rewrite (loop_body_skip _ _ _ _ Hq Hv).
  - destruct (loop_body_visit browser _ _ _ Hq Hv)
      as (_ & _ & _ & _ & evs & Hlog & _ & _ & Hnav & _).
    rewrite Hlog, fingerprint_renders_app.
    assert (fingerprint_renders h (Visiting url :: evs) = 0) as ->; [|lia].
    unfold Crawl.fingerprint_renders. change (navigations (Visiting url :: evs))
      with (navigations evs). rewrite Hnav.
    destruct (raises (browser url) NewPage); [done|].
    rewrite filter_cons_False; [done|]. intros <-. done.
Qed.

(** C1 (as amended): the renderer is never sent to an address whose
    fingerprint is in the visited set: from a state in which a fingerprint
    is visited, the number of renderings of addresses with that fingerprint
    stays what it is for the rest of the run.  (A fingerprint is added only
    after its page was processed up to the end of the loop over its links;
    an address whose processing raised earlier is not covered.) *)
Theorem visited_fingerprint_not_rendered_again s s' h :
  rtc step s s' ->
  h ∈ visited s ->
  h ∈ visited s' /\ fingerprint_renders h (log s') = fingerprint_renders h (log s).
Proof.
  intros Hsteps Hh. induction Hsteps as [s|s1 s2 s3 Hstep _ IH]; [done|].
  destruct Hstep as [s1 browser Hc].
  destruct (loop_body_visited browser _ Hc) as [Hsub _].
  destruct IH as [Hin Heq]; [by apply Hsub|].
  split; [done|]. rewrite Heq. by apply loop_body_renders.
Qed.

(** *** Order of processing *)

Lemma iterate_unfold n world s :
  loop_cond s = true ->
  iterate (S n) world s =
  iterate n (fun i => world (S i)) (fst (loop_body (world 0) s)).
Proof. intros Hc. cbn. by rewrite Hc. Qed.

(** The trace of visits only grows. *)
Lemma visit_order_iterate n world s :
  exists rest, visit_order (log (iterate n world s)) = visit_order (log s) ++ rest.
Proof.
  revert world s. induction n as [|n IH]; intros world s; cbn.
  { exists []. by rewrite app_nil_r. }
  destruct (loop_cond s) eqn:Hc; [|exists []; by rewrite app_nil_r].
  destruct (IH (fun i => world (S i)) (fst (loop_body (world 0) s))) as [rest ->].
  destruct (loop_cond_queue _ Hc) as (url & q & Hq).
  destruct (decide (hash_url url ∈ visited s)) as [Hv|Hv].
  - rewrite (loop_body_skip _ _ _ _ Hq Hv). by exists rest.
  - destruct (loop_body_visit (world 0) _ _ _ Hq Hv)
      as (_ & _ & _ & _ & evs & Hlog & Hord & _).
    rewrite Hlog. unfold visit_order in *. rewrite omap_app. cbn. rewrite Hord.
    exists (url :: rest). by rewrite <- app_assoc.
Qed.

(** What processing an unvisited head of the queue does to the trace of
    visits and to the budget. *)
Lemma loop_body_order browser s url q :
  queue s = url :: q -> hash_url url ∉ visited s ->
  visit_order (log (fst (loop_body browser s))) = visit_order (log s) ++ [url].
Proof.
  intros Hq Hv.
  destruct (loop_body_visit browser _ _ _ Hq Hv) as (_ & _ & _ & _ & evs & Hlog & Hord & _).
  rewrite Hlog. unfold visit_order in *. rewrite omap_app. cbn. by rewrite Hord.
Qed.

Lemma loop_cond_intro s url q n :
  queue s = url :: q -> size (visited s) <= n -> n < MAX_PAGES -> loop_cond s = true.
Proof.
  intros Hq Hsz Hn. unfold loop_cond. rewrite Hq.
  rewrite bool_decide_true by done. rewrite bool_decide_true by lia. done.
Qed.

Ltac fresh_fingerprint :=
  rewrite ?not_elem_of_union, ?not_elem_of_singleton;
  repeat split; first [apply not_elem_of_empty | congruence].

(** C6: the queue is first in, first out, which gives breadth-first order:
    when the seed's page yields the internal links [a; b] and [a]'s page
    yields [c], the four fingerprints being distinct, the first four
    addresses processed are the seed, [a], [b], [c], in this order,
    whatever [b]'s page does. *)
Theorem breadth_first_order world a b c n :
  NoDup [hash_url start_url; hash_url a; hash_url b; hash_url c] ->
  fails_early (world 0 start_url) start_url = false ->
  links_of (world 0 start_url) = [a; b] ->
  fails_early (world 1 a) a = false ->
  links_of (world 1 a) = [c] ->
  exists rest,
    visit_order (log (iterate (4 + n) world (init start_url))) =
    [start_url; a; b; c] ++ rest.
Proof.
  intros Hnd Hf0 Hl0 Hf1 Hl1.
  apply NoDup_cons in Hnd as [Hs Hnd]. apply NoDup_cons in Hnd as [Ha Hnd].
  apply NoDup_cons in Hnd as [Hb _].
  apply not_elem_of_cons in Hs as [Hsa Hs]. apply not_elem_of_cons in Hs as [Hsb Hs].
  apply not_elem_of_cons in Hs as [Hsc _].
  apply not_elem_of_cons in Ha as [Hab Ha]. apply not_elem_of_cons in Ha as [Hac _].
  apply not_elem_of_cons in Hb as [Hbc _].
  change (4 + n) with (S (S (S (S n)))).
  (* the seed *)
  set (s0 := init start_url).
  assert (queue s0 = [start_url]) as Hq0 by done.
  assert (hash_url start_url ∉ visited s0) as Hv0 by apply not_elem_of_empty.
  assert (size (visited s0) <= 0) as Hz0 by (cbn; by rewrite size_empty).
  assert (loop_cond s0 = true) as Hc0 by (eapply loop_cond_intro; [done..|unfold MAX_PAGES; lia]).
  pose proof (loop_body_order (world 0) _ _ _ Hq0 Hv0) as Ho1.
  destruct (loop_body_visited (world 0) _ Hc0) as [_ Hz1].
  destruct (loop_body_visit (world 0) _ _ _ Hq0 Hv0) as (_ & Hvis1 & Hque1 & _).
  rewrite Hf0 in Hvis1, Hque1. rewrite Hl0 in Hque1.
  rewrite (iterate_unfold _ _ _ Hc0).
  set (s1 := fst (loop_body (world 0) s0)) in *.
  rewrite !enqueue_new_fresh in Hque1 by apply not_elem_of_empty. cbn in Hque1.
  (* [a] *)
  assert (hash_url a ∉ visited s1) as Hv1 by (rewrite Hvis1; fresh_fingerprint).
  assert (loop_cond s1 = true) as Hc1 by (eapply loop_cond_intro; [done..|unfold MAX_PAGES; lia]).
  pose proof (loop_body_order (world 1) _ _ _ Hque1 Hv1) as Ho2.
  destruct (loop_body_visited (world 1) _ Hc1) as [_ Hz2].
  destruct (loop_body_visit (world 1) _ _ _ Hque1 Hv1) as (_ & Hvis2 & Hque2 & _).
  rewrite Hf1 in Hvis2, Hque2. rewrite Hl1 in Hque2.
  rewrite (iterate_unfold _ _ _ Hc1).
  set (s2 := fst (loop_body (world 1) s1)) in *.
  rewrite enqueue_new_fresh in Hque2 by (rewrite Hvis1; fresh_fingerprint). cbn in Hque2.
  (* [b], whatever its page does *)
  assert (hash_url b ∉ visited s2) as Hv2 by (rewrite Hvis2, Hvis1; fresh_fingerprint).
  assert (loop_cond s2 = true) as Hc2 by (eapply loop_cond_intro; [done..|unfold MAX_PAGES; lia]).
  pose proof (loop_body_order (world 2) _ _ _ Hque2 Hv2) as Ho3.
  destruct (loop_body_visited (world 2) _ Hc2) as [_ Hz3].
  destruct (loop_body_visit (world 2) _ _ _ Hque2 Hv2) as (_ & Hvis3 & Hque3 & _).
  rewrite (iterate_unfold _ _ _ Hc2).
  set (s3 := fst (loop_body (world 2) s2)) in *.
  assert (exists q3, queue s3 = c :: q3) as [q3 Hq3].
  { rewrite Hque3. destruct (fails_early (world 2 b) b); eexists; reflexivity. }
  (* [c] *)
  assert (hash_url c ∉ visited s3) as Hv3.
  { rewrite Hvis3.
    destruct (fails_early (world 2 b) b); rewrite Hvis2, Hvis1; fresh_fingerprint. }
  assert (loop_cond s3 = true) as Hc3 by (eapply loop_cond_intro; [done..|unfold MAX_PAGES; lia]).
  pose proof (loop_body_order (world 3) _ _ _ Hq3 Hv3) as Ho4.
  rewrite (iterate_unfold _ _ _ Hc3).
  destruct (visit_order_iterate n (fun i => world (S (S (S (S i)))))
              (fst (loop_body (world 3) s3))) as [rest ->].
  exists rest. rewrite Ho4, Ho3, Ho2, Ho1. done.
Qed.

(** *** Pages left open *)

(** When the processing of a page that was opened raises, [page.close()] is
    not reached (or is what raised): the iteration opens one page and closes
    none. *)
Lemma failed_visit_leaves_page_open browser s url q :
  queue s = url :: q ->
  hash_url url ∉ visited s ->
  raises (browser url) NewPage = false ->
  fails_early (browser url) url || raises (browser url) Close = true ->
  let s' := fst (loop_body browser s) in
  opened (log s') = opened (log s) ++ [url] /\ closed (log s') = closed (log s).
Proof.
  intros Hq Hv Hnew Hfail.
  destruct (loop_body_visit browser _ _ _ Hq Hv)
    as (_ & _ & _ & _ & evs & Hlog & _ & _ & _ & Hop & Hcl).
  rewrite Hnew in Hop. rewrite Hfail in Hcl. cbv zeta. rewrite Hlog.
  unfold opened, closed in *. rewrite !omap_app. cbn. rewrite Hop, Hcl.
  by rewrite app_nil_r.
Qed.

End Facts.

(** * Worked runs *)

Module Runs.
Import Scenario.

Local Abbreviation sha := Sha256.hexdigest.
Local Abbreviation parse := UrlParse.urlparse.

(** The digest agrees with the published test vectors. *)
Example sha256_empty :
  sha "" = "e3b0c44298fc1c149afbf4c8996fb92427ae41e4649b934ca495991b7852b855".
Proof. vm_compute. reflexivity. Qed.

Example sha256_abc :
  sha "abc" = "ba7816bf8f01cfea414140de5dae2223b00361a396177a9cb410ff61f20015ad".
Proof. vm_compute. reflexivity. Qed.

Example sha256_two_blocks :
  sha "abcdbcdecdefdefgefghfghighijhijkijkljklmklmnlmnomnopnopq" =
  "248d6a61d20638b8e5c026930c3e6039a33ce45964ff2167f6ecedd419db06c1".
Proof. vm_compute. reflexivity. Qed.

Example urlparse_home :
  parse home = Some (mkParseResult "https" "www.burgerbaeclothing.com" "/" "" "" "").
Proof. vm_compute. reflexivity. Qed.

Example urlparse_params :
  parse "/a/b;c/d;e?f" = Some (mkParseResult "" "" "/a/b;c/d" "e" "f" "").
Proof. vm_compute. reflexivity. Qed.

Example folder_of_shirts :
  sanitize_folder_name parse shirts = Some "collections_shirts" /\
  sanitize_folder_name parse shirts_slash = Some "collections_shirts".
Proof. split; vm_compute; reflexivity. Qed.

(** The whole crawl of the shop: four pages, in breadth-first order, each
    page closed, the link to another site left out of the graph. *)
Example crawl_shop :
  let s := run 10 shop_world in
  crawl_site sha parse START_URL 10 shop_world = Some s /\
  visit_order (log s) = [home; shirts; pants; polo] /\
  closed (log s) = [home; shirts; pants; polo] /\
  graph_edges s !! home = Some {[shirts; pants]} /\
  graph_edges s !! shirts = Some {[polo]}.
Proof.
  cbv zeta. unfold crawl_site. change (iterate sha parse START_URL 10 shop_world (init START_URL))
    with (run 10 shop_world).
  assert (loop_cond (run 10 shop_world) = false) as -> by (vm_compute; reflexivity).
  repeat split; vm_compute; reflexivity.
Qed.

(** C2, witness: twenty-five products linked from the home page; after
    twenty pages the budget is used up and the loop stops with addresses
    still queued. *)
Lemma visited_within_budget_witness :
  let s := run 20 (catalogue_world 25) in
  queue s <> [] /\ size (visited s) <= MAX_PAGES /\
  loop_cond s = false /\ forall s', ~ step sha parse START_URL s s'.
Proof.
  intros s.
  destruct (visited_within_budget sha parse START_URL s
              (iterate_reachable sha parse START_URL 20 (catalogue_world 25)))
    as [Hle Hfull].
  split; [vm_compute; discriminate|]. split; [exact Hle|].
  apply Hfull. vm_compute. reflexivity.
Defined.

(** C5, witness: after the home page of the shop, the link to the other
    site is neither queued nor in the graph. *)
Lemma crawl_graph_in_scope_witness :
  let s := run 1 shop_world in
  queue s = [shirts; pants] /\
  (elsewhere ∉ queue s) /\ graph_edges s !! elsewhere = None /\
  forall src dsts, graph_edges s !! src = Some dsts -> elsewhere ∉ dsts.
Proof.
  intros s. split; [vm_compute; reflexivity|].
  apply (crawl_graph_in_scope sha parse START_URL s
           (iterate_reachable sha parse START_URL 1 shop_world)).
  vm_compute. reflexivity.
Defined.


(** C9, witness: the home page cannot be loaded. *)
Lemma early_failure_changes_nothing_witness :
  let s := init START_URL in
  let s' := fst (loop_body sha parse START_URL (offline_world 0) s) in
  visited s' = visited s /\ graph_edges s' = graph_edges s /\ queue s' = [] /\
  hash_url sha home ∉ visited s'.
Proof.
  apply (early_failure_changes_nothing sha parse START_URL (offline_world 0)
           (init START_URL) home []).
  - reflexivity.
  - apply not_elem_of_empty.
  - vm_compute. reflexivity.
Defined.

(** C3, counterexample: the home page cannot be loaded; the error is
    reported and the fingerprint of the home page is not in the visited
    set. *)
Lemma failed_page_not_marked_visited :
  let s' := fst (loop_body sha parse START_URL (offline_world 0) (init START_URL)) in
  errors (log s') = [home] /\ visited s' = ∅ /\ hash_url sha home ∉ visited s'.
Proof.
  cbv zeta.
  assert (visited (fst (loop_body sha parse START_URL (offline_world 0) (init START_URL))) = ∅)
    as Hv by (vm_compute; reflexivity).
  split; [vm_compute; reflexivity|]. split; [exact Hv|].
  rewrite Hv. apply not_elem_of_empty.
Qed.

(** C3, witness: the same run. *)
Lemma failed_visit_is_caught_witness :
  let s' := fst (loop_body sha parse START_URL (offline_world 0) (init START_URL)) in
  snd (loop_body sha parse START_URL (offline_world 0) (init START_URL)) = Some tt /\
  home ∈ errors (log s') /\
  (exists new, queue s' = [] ++ new) /\
  (hash_url sha home ∈ visited s' <->
   fails_early parse START_URL (offline_world 0 home) home = false).
Proof.
  apply (failed_visit_is_caught sha parse START_URL (offline_world 0)
           (init START_URL) home []).
  - reflexivity.
  - apply not_elem_of_empty.
  - vm_compute. reflexivity.
Defined.

(** C4, counterexample: the home page links to itself; once it is
    processed its address is in the queue and its fingerprint in the
    visited set. *)
Lemma processed_url_queued_and_visited :
  let s := run 1 self_link_world in
  reachable sha parse START_URL s /\
  visit_order (log s) = [home] /\ home ∈ queue s /\ hash_url sha home ∈ visited s.
Proof.
  cbv zeta. split; [apply iterate_reachable|].
  split; [vm_compute; reflexivity|].
  assert (queue (run 1 self_link_world) = [home]) as -> by (vm_compute; reflexivity).
  assert (visited (run 1 self_link_world) = {[hash_url sha home]}) as ->
    by (vm_compute; reflexivity).
  split; [by left | by apply elem_of_singleton].
Qed.

(** C4, witness: in that state the next iteration drops the address. *)
Lemma frontier_dedup_at_dequeue_witness :
  let s := run 1 self_link_world in
  let s' := fst (loop_body sha parse START_URL (self_link_world 1) s) in
  (exists new, queue s' = [] ++ new /\ forall l, l ∈ new -> hash_url sha l ∉ visited s) /\
  s' = mkState (visited s) [] (graph_edges s) (log s).
Proof.
  intros s s'.
  destruct (frontier_dedup_at_dequeue sha parse START_URL (self_link_world 1) s home [])
    as [Hnew Hskip]; [vm_compute; reflexivity|].
  split; [exact Hnew|]. apply Hskip.
  assert (visited s = {[hash_url sha home]}) as -> by (vm_compute; reflexivity).
  by apply elem_of_singleton.
Defined.

(** C1, counterexample: the home page links twice to a page that cannot be
    loaded; the renderer is sent to that page twice. *)
Lemma failed_page_rendered_twice :
  let s := run 3 broken_link_world in
  reachable sha parse START_URL s /\
  navigations (log s) = [home; shirts; shirts] /\
  fingerprint_renders sha (hash_url sha shirts) (log s) = 2.
Proof.
  cbv zeta. split; [apply iterate_reachable|].
  split; vm_compute; reflexivity.
Qed.

(** C1, witness: the home page links to itself; it is visited after the
    first iteration and is not rendered again. *)
Lemma visited_fingerprint_not_rendered_again_witness :
  let s := run 1 self_link_world in
  let s' := iterate sha parse START_URL 2 (self_link_world) s in
  hash_url sha home ∈ visited s' /\
  fingerprint_renders sha (hash_url sha home) (log s') =
  fingerprint_renders sha (hash_url sha home) (log s).
Proof.
  intros s s'.
  apply (visited_fingerprint_not_rendered_again sha parse START_URL s s').
  - apply iterate_steps.
  - assert (visited s = {[hash_url sha home]}) as -> by (vm_compute; reflexivity).
    by apply elem_of_singleton.
Defined.

(** C6, witness: the shop; [shirts] and [pants] are the children of the
    home page, [polo] the child of [shirts]. *)
Lemma breadth_first_order_witness :
  exists rest,
    visit_order (log (iterate sha parse START_URL 4 shop_world (init START_URL))) =
    [home; shirts; pants; polo] ++ rest.
Proof.
  apply (breadth_first_order sha parse START_URL shop_world shirts pants polo 0).
  - apply (bool_decide_unpack _). vm_compute. exact I.
  - vm_compute. reflexivity.
  - vm_compute. reflexivity.
  - vm_compute. reflexivity.
  - vm_compute. reflexivity.
Defined.


(** C8: the home page cannot be loaded ([page.goto] raises); its page was
    opened and is never closed, the loop having ended. *)
Theorem page_left_open_when_goto_raises :
  let s := run 1 offline_world in
  opened (log s) = [home] /\ closed (log s) = [] /\ errors (log s) = [home] /\
  loop_cond s = false.
Proof. repeat split; vm_compute; reflexivity. Qed.

End Runs.

(** * More facts *)

(** ** The crawl as a whole *)

#[local] Set Warnings "-clear-no-such-hyp".

Section CrawlFacts.

Context (sha : string -> string) (urlparse : string -> option ParseResult).
Context (start_url : string).

Local Abbreviation hash_url := (hash_url sha).
Local Abbreviation is_internal_link := (is_internal_link urlparse).
Local Abbreviation loop_body := (loop_body sha urlparse start_url).
Local Abbreviation fails_early := (fails_early urlparse start_url).
Local Abbreviation links_of := (links_of urlparse start_url).
Local Abbreviation enqueue_new := (enqueue_new sha).
Local Abbreviation in_scope := (in_scope urlparse start_url).
Local Abbreviation step := (step sha urlparse start_url).
Local Abbreviation reachable := (reachable sha urlparse start_url).
Local Abbreviation iterate := (iterate sha urlparse start_url).
Local Abbreviation crawl_site := (crawl_site sha urlparse start_url).
Local Abbreviation loop_body_skip := (loop_body_skip sha urlparse start_url).
Local Abbreviation loop_body_visit := (loop_body_visit sha urlparse start_url).
Local Abbreviation reachable_invariant := (reachable_invariant sha urlparse start_url).
Local Abbreviation iterate_unfold := (iterate_unfold sha urlparse start_url).

(** *** Termination *)

(** The pages still allowed by the budget, then the length of the queue:
    every iteration lowers the pair. *)
Lemma iterate_exits k :
  forall m world s,
    MAX_PAGES - size (visited s) <= k -> length (queue s) <= m ->
    exists n, loop_cond (iterate n world s) = false.
Proof.
  induction k as [|k IHk]; intros m world s Hk.
  - intros _. exists 0. cbn. destruct (loop_cond s) eqn:Hc; [|done].
    apply loop_cond_budget in Hc. lia.
  - revert world s Hk. induction m as [|m IHm]; intros world s Hk Hm.
    + exists 0. cbn. destruct (loop_cond s) eqn:Hc; [|done].
      apply loop_cond_queue in Hc as (url & q & Hq). rewrite Hq in Hm. cbn in Hm. lia.
    + destruct (loop_cond s) eqn:Hc; [|by exists 0].
      pose proof (loop_cond_budget _ Hc) as Hb.
      destruct (loop_cond_queue _ Hc) as (url & q & Hq).
      rewrite Hq in Hm. cbn in Hm.
      assert (exists n, loop_cond (iterate n (fun i => world (S i))
                                     (fst (loop_body (world 0) s))) = false) as [n Hn].
      { destruct (decide (hash_url url ∈ visited s)) as [Hv|Hv].
        - rewrite (loop_body_skip _ _ _ _ Hq Hv). apply IHm; cbn; [done | lia].
        - destruct (loop_body_visit (world 0) _ _ _ Hq Hv) as (_ & Hvis & Hque & _).
          destruct (fails_early (world 0 url) url).
          + apply IHm; [by rewrite Hvis | rewrite Hque; lia].
          + apply (IHk (length (queue (fst (loop_body (world 0) s))))); [|done].
            rewrite Hvis, size_union by (by apply disjoint_singleton_l).
            rewrite size_singleton. lia. }
      exists (S n). by rewrite (iterate_unfold _ _ _ Hc).
Qed.

(** Once the loop has exited, more fuel changes nothing. *)
Lemma iterate_exited n world s : loop_cond s = false -> iterate n world s = s.
Proof. intros Hc. destruct n as [|n]; [done|]. unfold Crawl.iterate. by rewrite Hc. Qed.

Lemma iterate_stable n m world s :
  loop_cond (iterate n world s) = false -> iterate (n + m) world s = iterate n world s.
Proof.
  revert world s. induction n as [|n IH]; intros world s.
  - intros Hc. by apply iterate_exited.
  - destruct (loop_cond s) eqn:Hc.
    + change (S n + m) with (S (n + m)). rewrite !(iterate_unfold _ _ _ Hc). apply IH.
    + intros _. by rewrite !iterate_exited.
Qed.

(** X1: whatever the browser answers, the loop exits: some amount of fuel
    makes [crawl_site] return, and every larger amount gives the same final
    state. *)
Theorem crawl_site_terminates world :
  exists fuel s, forall fuel', fuel <= fuel' -> crawl_site fuel' world = Some s.
Proof.
  destruct (iterate_exits MAX_PAGES (length [start_url]) world (init start_url))
    as [n Hn]; [lia | done |].
  exists n, (iterate n world (init start_url)). intros fuel' Hle.
  unfold Crawl.crawl_site. replace fuel' with (n + (fuel' - n)) by lia.
  rewrite (iterate_stable _ _ _ _ Hn). by rewrite Hn.
Qed.

Lemma visited_size_bound s : reachable s -> size (visited s) <= MAX_PAGES.
Proof.
  revert s. apply reachable_invariant; [cbn; rewrite size_empty; lia|].
  intros s browser _ Hc IH. pose proof (loop_cond_budget _ Hc).
  destruct (loop_body_visited sha urlparse start_url browser _ Hc) as [_ Hsz]. lia.
Qed.

(** X2: when [crawl_site] returns, the queue is empty or the visited set
    holds exactly MAX_PAGES fingerprints. *)
Theorem crawl_site_exit fuel world s :
  crawl_site fuel world = Some s ->
  reachable s /\ (queue s = [] \/ size (visited s) = MAX_PAGES).
Proof.
  unfold Crawl.crawl_site.
  destruct (loop_cond (iterate fuel world (init start_url))) eqn:Hc; [done|].
  intros [= <-].
  assert (reachable (iterate fuel world (init start_url))) as Hr
    by apply iterate_reachable.
  split; [done|]. pose proof (visited_size_bound _ Hr) as Hb.
  apply andb_false_iff in Hc as [Hq|Hn].
  - left. apply bool_decide_eq_false in Hq. by destruct (queue _); [|contradict Hq].
  - right. apply bool_decide_eq_false in Hn. lia.
Qed.

(** *** The graph accumulator *)

Lemma add_edges_lookup_aux url links g src :
  add_edges url links g !! src =
  if decide (src = url /\ links <> [])
  then Some (list_to_set links ∪ default ∅ (g !! url))
  else g !! src.
Proof.
  revert g. induction links as [|l links IH]; intros g.
  - cbn. by rewrite decide_False by (by intros [_ ?]).
  - rewrite add_edges_cons, IH.
    destruct (decide (src = url)) as [->|Hne].
    + rewrite (decide_True (P := _ /\ l :: links <> [])) by done.
      rewrite lookup_insert_eq. cbn.
      destruct links as [|l' links].
      * rewrite decide_False by (by intros [_ ?]). f_equal. set_solver.
      * rewrite decide_True by done. f_equal. set_solver.
    + rewrite !decide_False by (by intros [? _]). by rewrite lookup_insert_ne.
Qed.

(** X3: after the loop over the links of [url], the entry of [url] holds
    the links just seen together with what it held before (a key is created
    only when there is a link), and every other entry is untouched. *)
Theorem add_edges_lookup url links g src :
  add_edges url links g !! src =
  if decide (src = url /\ links <> [])
  then Some (list_to_set links ∪ default ∅ (g !! url))
  else g !! src.
Proof. apply add_edges_lookup_aux. Qed.

(** X4: recording the same links of a page a second time leaves the graph
    as it is. *)
Theorem add_edges_idempotent url links g :
  add_edges url links (add_edges url links g) = add_edges url links g.
Proof.
  apply map_eq. intros src. rewrite !add_edges_lookup_aux.
  destruct (decide (src = url /\ links <> [])) as [[-> Hne]|Hno]; [|done].
  rewrite decide_True by done. cbn. f_equal. set_solver.
Qed.

Lemma add_edges_grows url links g src dsts :
  g !! src = Some dsts ->
  exists dsts', add_edges url links g !! src = Some dsts' /\ dsts ⊆ dsts'.
Proof.
  intros Hg. rewrite add_edges_lookup_aux.
  destruct (decide (src = url /\ links <> [])) as [[-> Hne]|Hno].
  - rewrite Hg. cbn. eexists. split; [done | set_solver].
  - by exists dsts.
Qed.

(** *** What an iteration keeps *)

Lemma loop_body_grows browser s :
  loop_cond s = true ->
  let s' := fst (loop_body browser s) in
  visited s ⊆ visited s' /\
  (forall src dsts, graph_edges s !! src = Some dsts ->
     exists dsts', graph_edges s' !! src = Some dsts' /\ dsts ⊆ dsts') /\
  exists more, log s' = log s ++ more.
Proof.
  intros Hc. cbv zeta. destruct (loop_cond_queue _ Hc) as (url & q & Hq).
  destruct (decide (hash_url url ∈ visited s)) as [Hv|Hv].
  - rewrite (loop_body_skip _ _ _ _ Hq Hv). cbn. split; [done|]. split.
    + intros src dsts Hg. by exists dsts.
    + exists []. by rewrite app_nil_r.
  - destruct (loop_body_visit browser _ _ _ Hq Hv) as (_ & Hvis & _ & Hgr & evs & Hlog & _).
    rewrite Hvis, Hgr, Hlog. split; [|split; [|by eexists]].
    + destruct (fails_early (browser url) url); [done | apply union_subseteq_r].
    + intros src dsts Hg. destruct (fails_early (browser url) url); [by exists dsts|].
      by apply add_edges_grows.
Qed.

(** X5: along a run the visited set never loses a fingerprint, the graph
    never loses a source or an edge, and the trace is only extended. *)
Theorem crawl_state_only_grows s s' :
  rtc step s s' ->
  visited s ⊆ visited s' /\
  (forall src dsts, graph_edges s !! src = Some dsts ->
     exists dsts', graph_edges s' !! src = Some dsts' /\ dsts ⊆ dsts') /\
  exists more, log s' = log s ++ more.
Proof.
  intros Hsteps. induction Hsteps as [s|s1 s2 s3 Hstep _ (IHv & IHg & more & IHl)].
  - split; [done|]. split; [intros src dsts Hg; by exists dsts|].
    exists []. by rewrite app_nil_r.
  - destruct Hstep as [s1 browser Hc].
    destruct (loop_body_grows browser _ Hc) as (Hv & Hg & more1 & Hl).
    split; [by etrans|]. split.
    + intros src dsts Hs. destruct (Hg _ _ Hs) as (d1 & Hd1 & Hsub1).
      destruct (IHg _ _ Hd1) as (d2 & Hd2 & Hsub2). exists d2. split; [done | by etrans].
    + exists (more1 ++ more). by rewrite IHl, Hl, app_assoc.
Qed.

(** X6: in every reachable state each source of the graph has been marked
    visited and has at least one destination. *)
Theorem graph_sources_are_visited s src dsts :
  reachable s ->
  graph_edges s !! src = Some dsts ->
  hash_url src ∈ visited s /\ dsts <> ∅.
Proof.
  intros Hr. revert src dsts. revert s Hr.
  apply (reachable_invariant (fun s => forall src dsts,
           graph_edges s !! src = Some dsts -> hash_url src ∈ visited s /\ dsts <> ∅)).
  - intros src dsts. cbn. by rewrite lookup_empty.
  - intros s browser _ Hc IH src dsts.
    destruct (loop_cond_queue _ Hc) as (url & q & Hq).
    destruct (decide (hash_url url ∈ visited s)) as [Hv|Hv].
    { rewrite (loop_body_skip _ _ _ _ Hq Hv). apply IH. }
    destruct (loop_body_visit browser _ _ _ Hq Hv) as (_ & Hvis & _ & Hgr & _).
    rewrite Hvis, Hgr. destruct (fails_early (browser url) url); [apply IH|].
    rewrite add_edges_lookup_aux.
    destruct (decide (src = url /\ links_of (browser url) <> [])) as [[-> Hne]|Hno].
    + intros [= <-]. split; [set_solver|].
      destruct (links_of (browser url)) as [|l ls]; [done|]. set_solver.
    + intros Hg. destruct (IH _ _ Hg) as [Hin Hd]. split; [set_solver | done].
Qed.

(** X7: in every reachable state each queued address is the seed or a
    destination of an edge of the graph. *)
Theorem queued_urls_are_graph_destinations s u :
  reachable s ->
  u ∈ queue s ->
  u = start_url \/ exists src dsts, graph_edges s !! src = Some dsts /\ u ∈ dsts.
Proof.
  intros Hr. revert u. revert s Hr.
  apply (reachable_invariant (fun s => forall u, u ∈ queue s ->
           u = start_url \/
           exists src dsts, graph_edges s !! src = Some dsts /\ u ∈ dsts)).
  - intros u Hu. left. by apply list_elem_of_singleton in Hu.
  - intros s browser _ Hc IH u.
    destruct (loop_body_grows browser _ Hc) as (_ & Hgrow & _).
    destruct (loop_cond_queue _ Hc) as (url & q & Hq).
    assert (forall u, u ∈ q -> u = start_url \/
              exists src dsts, graph_edges (fst (loop_body browser s)) !! src = Some dsts /\
                               u ∈ dsts) as Hold.
    { intros u' Hu'. destruct (IH u') as [->|(src & dsts & Hg & Hin)];
        [rewrite Hq; by right | by left |].
      right. destruct (Hgrow _ _ Hg) as (dsts' & Hg' & Hsub). exists src, dsts'.
      split; [done | by apply Hsub]. }
    destruct (decide (hash_url url ∈ visited s)) as [Hv|Hv].
    { revert Hold. rewrite (loop_body_skip _ _ _ _ Hq Hv). cbn. intros Hold. apply Hold. }
    destruct (loop_body_visit browser _ _ _ Hq Hv) as (_ & _ & Hque & Hgr & _).
    rewrite Hque. destruct (fails_early (browser url) url); [apply Hold|].
    intros [Hu|Hu]%elem_of_app; [by apply Hold|]. right.
    apply enqueue_new_spec in Hu as [_ Hu]. rewrite Hgr.
    exists url. eexists. rewrite add_edges_lookup_aux.
    rewrite decide_True; [split; [done|] |].
    + apply elem_of_union. left. by apply elem_of_list_to_set.
    + split; [done|]. intros E. rewrite E in Hu. by apply not_elem_of_nil in Hu.
Qed.

(** *** The trace *)

Lemma fails_early_new_page pg url :
  fails_early pg url = false -> raises pg NewPage = false.
Proof.
  unfold Crawl.fails_early. intros H.
  repeat (apply orb_false_iff in H as [H _]). done.
Qed.

(** What processing an unvisited head of the queue appends to each reading
    of the trace. *)
Lemma loop_body_trace browser s url q :
  queue s = url :: q -> hash_url url ∉ visited s ->
  let pg := browser url in
  let s' := fst (loop_body browser s) in
  let failed := fails_early pg url || raises pg Close in
  visit_order (log s') = visit_order (log s) ++ [url] /\
  errors (log s') = errors (log s) ++ (if failed then [url] else []) /\
  navigations (log s') = navigations (log s) ++ (if raises pg NewPage then [] else [url]) /\
  opened (log s') = opened (log s) ++ (if raises pg NewPage then [] else [url]) /\
  closed (log s') = closed (log s) ++ (if failed then [] else [url]).
Proof.
  intros Hq Hv.
  destruct (loop_body_visit browser _ _ _ Hq Hv)
    as (_ & _ & _ & _ & evs & Hlog & Hord & Herr & Hnav & Hop & Hcl).
  cbv zeta. rewrite Hlog. unfold visit_order, errors, navigations, opened, closed in *.
  rewrite !omap_app. cbn. by rewrite Hord, Herr, Hnav, Hop, Hcl.
Qed.

(** X8: in every reachable state, each processing that was started has
    ended either with its page closed or with an error reported, never
    both; no more pages were opened than processings started, and no more
    closed than opened. *)
Theorem every_visit_closes_or_reports s :
  reachable s ->
  length (visit_order (log s)) = length (closed (log s)) + length (errors (log s)) /\
  length (closed (log s)) <= length (opened (log s)) /\
  length (opened (log s)) <= length (visit_order (log s)).
Proof.
  revert s. apply reachable_invariant; [cbn; lia|].
  intros s browser _ Hc (IH1 & IH2 & IH3).
  destruct (loop_cond_queue _ Hc) as (url & q & Hq).
  destruct (decide (hash_url url ∈ visited s)) as [Hv|Hv].
  { by rewrite (loop_body_skip _ _ _ _ Hq Hv). }
  destruct (loop_body_trace browser _ _ _ Hq Hv) as (-> & -> & _ & -> & ->).
  rewrite !length_app.
  destruct (fails_early (browser url) url) eqn:Hf; cbn [orb].
  - destruct (raises (browser url) NewPage); cbn; lia.
  - rewrite (fails_early_new_page _ _ Hf).
    destruct (raises (browser url) Close); cbn; lia.
Qed.

(** X9: in every reachable state each fingerprint of the visited set is the
    fingerprint of an address the renderer was sent to. *)
Theorem visited_fingerprints_were_rendered s h :
  reachable s ->
  h ∈ visited s ->
  exists url, url ∈ navigations (log s) /\ hash_url url = h.
Proof.
  intros Hr. revert h. revert s Hr.
  apply (reachable_invariant (fun s => forall h, h ∈ visited s ->
           exists url, url ∈ navigations (log s) /\ hash_url url = h)).
  - intros h Hh. by apply not_elem_of_empty in Hh.
  - intros s browser _ Hc IH h.
    destruct (loop_cond_queue _ Hc) as (url & q & Hq).
    destruct (decide (hash_url url ∈ visited s)) as [Hv|Hv].
    { rewrite (loop_body_skip _ _ _ _ Hq Hv). apply IH. }
    destruct (loop_body_visit browser _ _ _ Hq Hv) as (_ & Hvis & _).
    destruct (loop_body_trace browser _ _ _ Hq Hv) as (_ & _ & -> & _).
    rewrite Hvis. intros Hh.
    assert (h ∈ visited s -> exists url0,
              url0 ∈ navigations (log s) ++
                (if raises (browser url) NewPage then [] else [url]) /\
              hash_url url0 = h) as Hold.
    { intros Hin. destruct (IH _ Hin) as (u & Hu & Heq). exists u.
      split; [apply elem_of_app; by left | done]. }
    destruct (fails_early (browser url) url) eqn:Hf; [by apply Hold|].
    apply elem_of_union in Hh as [Hh|Hh]; [|by apply Hold].
    apply elem_of_singleton in Hh as ->. exists url.
    rewrite (fails_early_new_page _ _ Hf). split; [|done].
    apply elem_of_app. right. by left.
Qed.

(** X10: the crawler stays on the site: in every reachable state each
    address whose processing was started is the seed or is classified
    internal relative to the seed. *)
Theorem only_in_scope_urls_processed s u :
  reachable s ->
  u ∈ visit_order (log s) ->
  u = start_url \/ in_scope u.
Proof.
  intros Hr Hu.
  assert ((forall u, u ∈ queue s -> u = start_url \/ in_scope u) /\
          (forall u, u ∈ visit_order (log s) -> u = start_url \/ in_scope u)) as [_ H];
    [|by apply H].
  clear u Hu. revert s Hr. apply reachable_invariant.
  - split; intros u Hu; [left; by apply list_elem_of_singleton in Hu|].
    by apply not_elem_of_nil in Hu.
  - intros s browser _ Hc [IHq IHo].
    destruct (loop_cond_queue _ Hc) as (url & q & Hq).
    assert (forall u, u ∈ q -> u = start_url \/ in_scope u) as Hq'.
    { intros u Hu. apply IHq. rewrite Hq. by right. }
    destruct (decide (hash_url url ∈ visited s)) as [Hv|Hv].
    { by rewrite (loop_body_skip _ _ _ _ Hq Hv). }
    destruct (loop_body_visit browser _ _ _ Hq Hv) as (_ & _ & Hque & _).
    destruct (loop_body_trace browser _ _ _ Hq Hv) as (-> & _).
    rewrite Hque. split.
    + destruct (fails_early (browser url) url); [done|].
      intros u [Hu|Hu]%elem_of_app; [by apply Hq'|]. right.
      apply enqueue_new_spec in Hu as [_ Hu].
      by apply (links_of_in_scope urlparse start_url (browser url)).
    + intros u [Hu|Hu]%elem_of_app; [by apply IHo|].
      apply list_elem_of_singleton in Hu as ->. apply IHq. rewrite Hq. by left.
Qed.

End CrawlFacts.

(** ** The helpers *)

Module PathFacts.
Import PyStr PosixPath.

Lemma append_assoc s t u : ((s ++ t) ++ u = s ++ (t ++ u))%string.
Proof.
  induction s as [|a s IH]; [done|].
  change (String a ((s ++ t) ++ u) = String a (s ++ (t ++ u)))%string. by rewrite IH.
Qed.

Lemma contains_app c s t : contains c (s ++ t)%string = contains c s || contains c t.
Proof.
  induction s as [|a s IH]; [done|]. simpl. rewrite IH. by rewrite orb_assoc.
Qed.

Lemma replace_no_slash s : contains "/" (replace "/" "_" s) = false.
Proof.
  induction s as [|a s IH]; [done|]. simpl. rewrite IH.
  destruct (Ascii.eqb a "/") eqn:E; [done|]. by rewrite E.
Qed.

Lemma replace_without a b s : contains a s = false -> replace a b s = s.
Proof.
  induction s as [|x s IH]; [done|]. simpl. intros [Hx Hs]%orb_false_iff.
  by rewrite Hx, IH.
Qed.

Lemma lstrip_without c s : contains c s = false -> lstrip c s = s.
Proof. destruct s as [|x s]; [done|]. simpl. intros [-> _]%orb_false_iff. done. Qed.

Lemma rstrip_without c s : contains c s = false -> rstrip c s = s.
Proof.
  induction s as [|x s IH]; [done|]. simpl. intros [Hx Hs]%orb_false_iff.
  rewrite IH by done. rewrite Hx. by destruct s.
Qed.

Lemma strip_without c s : contains c s = false -> strip c s = s.
Proof. intros H. unfold strip. by rewrite lstrip_without, rstrip_without. Qed.

Lemma strip_leading c s : strip c (String c s) = strip c s.
Proof. unfold strip. simpl. by rewrite Ascii.eqb_refl. Qed.

Lemma basename_join root name :
  contains "/" name = false -> basename (root ++ "/" ++ name)%string = name.
Proof.
  intros Hn. induction root as [|a root IH].
  - change (basename (String "/" name) = name). cbn [basename].
    rewrite Hn. reflexivity.
  - change (basename (String a (root ++ "/" ++ name)) = name). cbn [basename].
    rewrite contains_app. change ("/" ++ name)%string with (String "/" name).
    cbn [contains]. rewrite Ascii.eqb_refl. cbn [orb]. rewrite orb_true_r. exact IH.
Qed.

Lemma endswith_app c s t :
  t <> EmptyString -> endswith c (s ++ t)%string = endswith c t.
Proof.
  intros Ht. induction s as [|a s IH]; [done|]. simpl.
  destruct (s ++ t)%string eqn:E; [|done].
  destruct s; [|done]. by destruct t.
Qed.

Lemma endswith_without c s : contains c s = false -> endswith c s = false.
Proof.
  induction s as [|a s IH]; [done|]. simpl. intros [Ha Hs]%orb_false_iff.
  destruct s; [done | by apply IH].
Qed.

Lemma startswith_without c s : contains c s = false -> startswith c s = false.
Proof. destruct s as [|a s]; [done|]. simpl. by intros [-> _]%orb_false_iff. Qed.

(** Joining a directory without a final slash and a name without a slash. *)
Lemma join_name dir name :
  dir <> EmptyString -> endswith "/" dir = false -> contains "/" name = false ->
  join dir name = (dir ++ "/" ++ name)%string.
Proof.
  intros Hd He Hn. unfold join. rewrite (startswith_without _ _ Hn), He.
  by destruct dir.
Qed.

End PathFacts.

Section HelperFacts.

Context (urlparse : string -> option ParseResult).

Local Abbreviation sanitize_folder_name := (sanitize_folder_name urlparse).
Local Abbreviation is_internal_link := (is_internal_link urlparse).
Local Abbreviation internal_links := (internal_links urlparse).

(** *** [sanitize_folder_name] *)

Lemma sanitize_folder_name_shape url name :
  sanitize_folder_name url = Some name ->
  name <> EmptyString /\ PyStr.contains "/" name = false.
Proof.
  unfold Crawl.sanitize_folder_name. destruct (urlparse url) as [r|]; [|done]. cbn.
  intros [= <-].
  pose proof (PathFacts.replace_no_slash (PyStr.strip "/" (path r))) as Hno.
  destruct (PyStr.replace "/" "_" (PyStr.strip "/" (path r))); [done|].
  by split.
Qed.

(** X11: the folder name is usable as one path component: it is never
    empty and it contains no slash. *)
Theorem sanitize_folder_name_is_a_name url name :
  sanitize_folder_name url = Some name ->
  name <> EmptyString /\ PyStr.contains "/" name = false.
Proof. apply sanitize_folder_name_shape. Qed.

(** X12: folder names collide: an address whose path is the folder name of
    another address (after one slash) gets the same folder, as "/a/b" and
    "/a_b" do. *)
Theorem sanitize_folder_name_collides u1 u2 r2 name :
  sanitize_folder_name u1 = Some name ->
  urlparse u2 = Some r2 ->
  path r2 = String "/" name ->
  sanitize_folder_name u2 = Some name.
Proof.
  intros H1 H2 Hp. destruct (sanitize_folder_name_shape _ _ H1) as [Hne Hno].
  unfold Crawl.sanitize_folder_name. rewrite H2. cbn. rewrite Hp.
  rewrite PathFacts.strip_leading, PathFacts.strip_without by done.
  rewrite PathFacts.replace_without by done. by destruct name.
Qed.

(** X13: the markup of a page goes to
    [burgerbae_mapped2/<name>/<name>.html], [<name>] being its folder
    name. *)
Theorem html_file_path_of_url url name :
  sanitize_folder_name url = Some name ->
  let folder_path := PosixPath.join OUTPUT_ROOT name in
  folder_path = os_path_join OUTPUT_ROOT name /\
  html_file_path folder_path =
    ("burgerbae_mapped2/" ++ name ++ "/" ++ name ++ ".html")%string.
Proof.
  intros H. destruct (sanitize_folder_name_shape _ _ H) as [Hne Hno]. cbv zeta.
  assert (PosixPath.join OUTPUT_ROOT name = (OUTPUT_ROOT ++ "/" ++ name)%string) as ->
    by (by apply PathFacts.join_name).
  split; [done|]. unfold html_file_path.
  rewrite PathFacts.basename_join by done.
  rewrite PathFacts.join_name.
  - unfold OUTPUT_ROOT. by rewrite !PathFacts.append_assoc.
  - unfold OUTPUT_ROOT. intros E. cbv in E. discriminate E.
  - rewrite <- PathFacts.append_assoc, PathFacts.endswith_app by done.
    by apply PathFacts.endswith_without.
  - rewrite PathFacts.contains_app. by rewrite Hno.
Qed.

(** *** [is_internal_link] and [extract_internal_links] *)

(** X14: the classification is symmetric (also in whether it raises) and
    transitive. *)
Theorem is_internal_link_symmetric_transitive a b c :
  is_internal_link a b = is_internal_link b a /\
  (is_internal_link a b = Some true -> is_internal_link b c = Some true ->
   is_internal_link a c = Some true).
Proof.
  unfold Crawl.is_internal_link.
  destruct (urlparse a) as [ra|], (urlparse b) as [rb|], (urlparse c) as [rc|];
    cbn; try done.
  - split.
    + f_equal. apply bool_decide_ext. split; congruence.
    + intros [= Hab%bool_decide_eq_true] [= Hbc%bool_decide_eq_true].
      f_equal. apply bool_decide_eq_true. congruence.
  - split; [|done]. f_equal. apply bool_decide_ext. split; congruence.
Qed.

(** X15: the links kept are exactly the links classified internal, in the
    order of the page and with their repetitions. *)
Theorem internal_links_is_filter base_url links kept :
  internal_links base_url links = Some kept ->
  kept = filter (fun l => is_internal_link base_url l = Some true) links.
Proof.
  revert kept. induction links as [|x links IH]; intros kept Hk.
  - by injection Hk as <-.
  - cbn in Hk.
    destruct (is_internal_link base_url x) as [keep|] eqn:Hx; [|done]. cbn in Hk.
    destruct (Crawl.internal_links urlparse base_url links) as [kept'|]; [|done].
    cbn in Hk. injection Hk as <-. specialize (IH kept' eq_refl). destruct keep.
    + rewrite filter_cons_True by done. by f_equal.
    + by rewrite filter_cons_False by congruence.
Qed.

(** X16: the extraction raises exactly when classifying one of the links
    raises; in particular it returns for a page without links even when the
    seed itself cannot be parsed. *)
Theorem internal_links_raises_iff base_url links :
  internal_links base_url links = None <->
  exists l, l ∈ links /\ is_internal_link base_url l = None.
Proof.
  induction links as [|x links IH]; cbn.
  - split; [done|]. intros (l & Hl & _). by apply not_elem_of_nil in Hl.
  - destruct (is_internal_link base_url x) as [keep|] eqn:Hx; cbn.
    + destruct (Crawl.internal_links urlparse base_url links) as [kept'|]; cbn.
      * split; [done|]. intros (l & [->|Hl]%elem_of_cons & Hn); [congruence|].
        destruct IH as [_ IH]. discriminate IH. by exists l.
      * split; [|done]. intros _. destruct IH as [IH _].
        destruct (IH eq_refl) as (l & Hl & Hn). exists l. split; [by right | done].
    + split; [|done]. intros _. exists x. split; [by left | done].
Qed.

End HelperFacts.

(** *** The extraction log *)

Module CsvFacts.
Import Csv.

Lemma append_all_some rows calls :
  append_all (Some rows) calls = Some (rows ++ concat (map data_rows calls)).
Proof.
  revert rows. induction calls as [|[[u imgs] lnks] calls IH]; intros rows; cbn.
  - by rewrite app_nil_r.
  - unfold append_all in IH. rewrite IH. unfold append_to_csv. cbn.
    by rewrite <- !app_assoc.
Qed.

(** X17: on a file that exists the rows of every call are appended after
    the rows already there, in the order of the calls, and no header is
    written. *)
Theorem append_all_existing rows calls :
  append_all (Some rows) calls = Some (rows ++ concat (map data_rows calls)).
Proof. apply append_all_some. Qed.

(** X18: starting without a file, the header is written once, by the first
    call, before all the rows. *)
Theorem append_all_from_scratch call calls :
  append_all None (call :: calls) =
  Some (header :: concat (map data_rows (call :: calls))).
Proof.
  destruct call as [[u imgs] lnks]. cbn.
  change (foldl _ ?f calls) with (append_all f calls).
  rewrite append_all_some. unfold append_to_csv. cbn. by rewrite <- !app_assoc.
Qed.

End CsvFacts.

(** ** The labels of the drawing *)

Module DrawFacts.
Import Draw.

Lemma first_seen_spec seen l x :
  x ∈ first_seen seen l <-> x ∈ l /\ x ∉ seen.
Proof.
  revert seen. induction l as [|y l IH]; intros seen; cbn.
  - split; [by intros ?%not_elem_of_nil | by intros [?%not_elem_of_nil _]].
  - destruct (decide (y ∈ seen)) as [Hy|Hy].
    + rewrite IH, elem_of_cons. naive_solver.
    + rewrite !elem_of_cons, IH, not_elem_of_cons.
      destruct (decide (x = y)); naive_solver.
Qed.

Lemma first_seen_NoDup seen l : NoDup (first_seen seen l).
Proof.
  revert seen. induction l as [|y l IH]; intros seen; cbn; [constructor|].
  destruct (decide (y ∈ seen)); [apply IH|].
  constructor; [|apply IH]. rewrite first_seen_spec, not_elem_of_cons. naive_solver.
Qed.

Lemma insert_desc_Permutation key x l : insert_desc key x l ≡ₚ x :: l.
Proof.
  induction l as [|y l IH]; cbn; [done|].
  destruct (key y <=? key x)%nat; [done|]. rewrite IH. apply Permutation_swap.
Qed.

Lemma sorted_desc_Permutation key l : sorted_desc key l ≡ₚ l.
Proof.
  induction l as [|x l IH]; cbn; [done|].
  by rewrite insert_desc_Permutation, IH.
Qed.

Lemma insert_desc_sorted key x l :
  StronglySorted (fun a b => key b <= key a) l ->
  StronglySorted (fun a b => key b <= key a) (insert_desc key x l).
Proof.
  induction 1 as [|y l Hs IH Hall]; cbn; [repeat constructor|].
  destruct (key y <=? key x)%nat eqn:E.
  - apply Nat.leb_le in E. constructor; [by constructor|].
    constructor; [done|]. eapply Forall_impl; [exact Hall|]. cbn. lia.
  - apply Nat.leb_gt in E. constructor; [done|].
    rewrite insert_desc_Permutation. constructor; [lia | done].
Qed.

Lemma sorted_desc_sorted key l :
  StronglySorted (fun a b => key b <= key a) (sorted_desc key l).
Proof.
  induction l as [|x l IH]; cbn; [constructor|]. by apply insert_desc_sorted.
Qed.

Lemma nodes_spec edges n :
  n ∈ nodes edges <-> exists e, e ∈ edges /\ (fst e = n \/ snd e = n).
Proof.
  unfold nodes. rewrite first_seen_spec, list_elem_of_In, in_flat_map.
  split.
  - intros [(e & He & Hn) _]. exists e. rewrite list_elem_of_In. split; [done|].
    cbn in Hn. naive_solver.
  - intros (e & He & Hn). split; [|apply not_elem_of_nil].
    exists e. rewrite <- list_elem_of_In. split; [done|]. cbn. naive_solver.
Qed.

(** X19: the labels are the first [max_labels] nodes (all of them when
    there are fewer), each an end of an edge and none twice. *)
Theorem top_nodes_are_nodes edges max_labels :
  length (top_nodes edges max_labels) = min max_labels (length (nodes edges)) /\
  NoDup (top_nodes edges max_labels) /\
  forall n, n ∈ top_nodes edges max_labels ->
            exists e, e ∈ edges /\ (fst e = n \/ snd e = n).
Proof.
  unfold top_nodes. split; [|split].
  - by rewrite length_take, sorted_desc_Permutation.
  - eapply sublist_NoDup; [|apply sublist_take].
    rewrite sorted_desc_Permutation. apply first_seen_NoDup.
  - intros n Hn. apply nodes_spec. rewrite <- (sorted_desc_Permutation (degree edges)).
    eapply elem_of_sublist; [exact Hn | apply sublist_take].
Qed.

(** X20: no node left without a label has more edges than a labelled
    one. *)
Theorem top_nodes_most_connected edges max_labels n m :
  n ∈ top_nodes edges max_labels ->
  m ∈ nodes edges ->
  m ∉ top_nodes edges max_labels ->
  degree edges m <= degree edges n.
Proof.
  unfold top_nodes. intros Hn Hm Hnot.
  pose proof (sorted_desc_sorted (degree edges) (nodes edges)) as Hs.
  rewrite <- (take_drop max_labels (sorted_desc (degree edges) (nodes edges))) in Hs.
  apply (StronglySorted_app_1_elem_of _ _ _ n m Hs); [done|].
  rewrite <- (sorted_desc_Permutation (degree edges)) in Hm.
  rewrite <- (take_drop max_labels (sorted_desc (degree edges) (nodes edges))) in Hm.
  by apply elem_of_app in Hm as [Hm|Hm].
Qed.

End DrawFacts.

(** ** The fingerprint *)

Module Sha256Facts.
Import Sha256.

Lemma round_length st kw : length (round st kw) = length st.
Proof.
  unfold round. do 9 (destruct st as [|? st]; [reflexivity|]). reflexivity.
Qed.

Lemma rounds_length kws st : length (fold_left round kws st) = length st.
Proof.
  revert st. induction kws as [|kw kws IH]; intros st; cbn; [done|].
  by rewrite IH, round_length.
Qed.

Lemma compress_length h block : length (compress h block) = length h.
Proof.
  unfold compress. rewrite length_map, length_combine, rounds_length. lia.
Qed.

Lemma digest_length msg : length (digest msg) = 8.
Proof.
  unfold digest. generalize (blocks (length (pad msg)) (pad msg)). intros bs.
  assert (length H0 = 8) as <- by reflexivity. generalize H0.
  induction bs as [|b bs IH]; intros h; cbn; [done|].
  by rewrite IH, compress_length.
Qed.

Lemma string_length_app s t :
  String.length (s ++ t)%string = String.length s + String.length t.
Proof.
  induction s as [|a s IH]; [done|].
  change (S (String.length (s ++ t)%string) = S (String.length s + String.length t)).
  by rewrite IH.
Qed.

Lemma all_app p s t : PyStr.all p (s ++ t)%string = PyStr.all p s && PyStr.all p t.
Proof.
  induction s as [|a s IH]; [done|].
  change (p a && PyStr.all p (s ++ t)%string = p a && PyStr.all p s && PyStr.all p t).
  by rewrite IH, andb_assoc.
Qed.

Lemma hex_digit_hex x : is_lower_hex (hex_digit (x mod 16)) = true.
Proof.
  assert (0 <= x mod 16 < 16)%Z as Hr by (apply Z.mod_pos_bound; lia).
  assert (exists n, (n < 16)%nat /\ x mod 16 = Z.of_nat n)%Z as (n & Hn & ->).
  { exists (Z.to_nat (x mod 16)). lia. }
  do 16 (destruct n as [|n]; [reflexivity|]). lia.
Qed.

Lemma hex_length n x : String.length (hex n x) = n.
Proof.
  revert x. induction n as [|n IH]; intros x; [done|].
  cbn [hex]. rewrite string_length_app, IH. cbn. lia.
Qed.

Lemma hex_all_hex n x : PyStr.all is_lower_hex (hex n x) = true.
Proof.
  revert x. induction n as [|n IH]; intros x; [done|].
  cbn [hex]. rewrite all_app, IH. cbn [PyStr.all andb]. by rewrite hex_digit_hex.
Qed.

Lemma hexdigest_words ws :
  let s := fold_right (fun w acc => (hex 8 w ++ acc)%string) EmptyString ws in
  String.length s = 8 * length ws /\ PyStr.all is_lower_hex s = true.
Proof.
  induction ws as [|w ws [IHl IHa]]; [done|]. cbn [fold_right]. cbv zeta. split.
  - rewrite string_length_app, hex_length, IHl. cbn [length]. lia.
  - by rewrite all_app, hex_all_hex, IHa.
Qed.

(** X21: the fingerprint of every address is a text of 64 characters, each
    a digit or a letter from a to f. *)
Theorem hash_url_format url :
  String.length (hash_url hexdigest url) = 64 /\
  PyStr.all is_lower_hex (hash_url hexdigest url) = true.
Proof.
  unfold hash_url, hexdigest.
  destruct (hexdigest_words (digest (bytes_of url))) as [Hl Ha].
  rewrite digest_length in Hl. by split.
Qed.

End Sha256Facts.

(** ** What a successful visit does, step by step *)

Section VisitTrace.

Context (sha : string -> string) (urlparse : string -> option ParseResult).
Context (start_url : string).

Local Abbreviation hash_url := (hash_url sha).
Local Abbreviation loop_body := (loop_body sha urlparse start_url).
Local Abbreviation fails_early := (fails_early urlparse start_url).

(** X22: when no call before the loop over the links raises, the iteration
    opens a page, navigates, writes the markup to the folder of the address
    and then one row per image and per anchor (all anchors, internal or
    not), and closes the page, in this order; a time-out of the wait for
    network idle is only reported, and an exception of [page.close()] is
    reported in place of the closing. *)
Theorem processed_page_trace browser s url q :
  queue s = url :: q ->
  hash_url url ∉ visited s ->
  fails_early (browser url) url = false ->
  let pg := browser url in
  exists name,
    sanitize_folder_name urlparse url = Some name /\
    log (fst (loop_body browser s)) =
      log s ++
      [Visiting url; Opened url; Navigate url] ++
      (if raises pg WaitForLoadState then [IdleTimeout] else []) ++
      [SavedHtml (os_path_join OUTPUT_ROOT name); CsvRows url (img_src pg) (a_href pg)] ++
      [if raises pg Close then ErrorVisiting url else Closed url].
Proof.
  intros Hq Hv Hf. cbv zeta.
  rewrite (loop_body_unfold sha urlparse start_url _ _ _ _ Hq).
  rewrite bool_decide_false by done.
  unfold Crawl.fails_early in Hf.
  repeat match type of Hf with
         | _ || _ = false => apply orb_false_iff in Hf as [Hf ?]
         end.
  destruct (sanitize_folder_name urlparse url) as [name|] eqn:Hname; [|done].
  destruct (internal_links urlparse start_url (a_href (browser url))) as [links|] eqn:Hlinks;
    [|done].
  exists name. split; [done|].
  unfold visit, try_except, save_html, append_to_csv, extract_images_and_links,
    extract_internal_links, mbind, M_bind, emit, ext, lift, mark_visited, raise, mret, M_ret.
  repeat match goal with H : raises _ _ = false |- _ => rewrite H; clear H end.
  rewrite Hname, Hlinks.
  cbn [fst snd visited queue graph_edges log].
  destruct (raises (browser url) WaitForLoadState);
    cbn [fst snd visited queue graph_edges log];
    rewrite (for_each_discover sha); cbn [fst snd visited queue graph_edges log];
    destruct (raises (browser url) Close); cbn [fst snd visited queue graph_edges log];
    by rewrite <- ?app_assoc.
Qed.

End VisitTrace.

(** * More worked runs *)

Module MoreRuns.
Import Scenario.

Local Abbreviation sha := Sha256.hexdigest.
Local Abbreviation parse := UrlParse.urlparse.

Example top_nodes_of_shop :
  Draw.nodes shop_edges = [home; shirts; pants; polo] /\
  map (Draw.degree shop_edges) (Draw.nodes shop_edges) = [2; 2; 1; 1] /\
  Draw.top_nodes shop_edges 3 = [home; shirts; pants].
Proof. repeat split; vm_compute; reflexivity. Qed.

Example csv_of_two_pages :
  Csv.append_all None [("p", ["i.png"], ["a"; "b"]); ("q", [], ["c"])] =
  Some [Csv.header; ["p"; "i.png"; ""]; ["p"; ""; "a"]; ["p"; ""; "b"]; ["q"; ""; "c"]].
Proof. reflexivity. Qed.

(** X2, witness: the crawl of the shop ends with an empty queue. *)
Lemma crawl_site_exit_witness :
  let s := run 10 shop_world in
  reachable sha parse START_URL s /\ (queue s = [] \/ size (visited s) = MAX_PAGES).
Proof.
  apply (crawl_site_exit sha parse START_URL 10 shop_world).
  unfold crawl_site.
  change (iterate sha parse START_URL 10 shop_world (init START_URL))
    with (run 10 shop_world).
  assert (loop_cond (run 10 shop_world) = false) as -> by (vm_compute; reflexivity).
  reflexivity.
Defined.

(** X5, witness: from the start of the crawl of the shop to the state
    after two pages. *)
Lemma crawl_state_only_grows_witness :
  let s := init START_URL in
  let s' := run 2 shop_world in
  visited s ⊆ visited s' /\
  (forall src dsts, graph_edges s !! src = Some dsts ->
     exists dsts', graph_edges s' !! src = Some dsts' /\ dsts ⊆ dsts') /\
  exists more, log s' = log s ++ more.
Proof.
  apply (crawl_state_only_grows sha parse START_URL (init START_URL) (run 2 shop_world)).
  apply iterate_steps.
Defined.

(** X6, witness: the home page of the shop, once processed. *)
Lemma graph_sources_are_visited_witness :
  hash_url sha home ∈ visited (run 2 shop_world) /\
  ({[shirts; pants]} : gset string) <> ∅.
Proof.
  apply (graph_sources_are_visited sha parse START_URL (run 2 shop_world) home).
  - apply iterate_reachable.
  - vm_compute. reflexivity.
Defined.

(** X7, witness: [pants] is queued after the home page of the shop. *)
Lemma queued_urls_are_graph_destinations_witness :
  pants = START_URL \/
  exists src dsts, graph_edges (run 1 shop_world) !! src = Some dsts /\ pants ∈ dsts.
Proof.
  apply (queued_urls_are_graph_destinations sha parse START_URL (run 1 shop_world) pants).
  - apply iterate_reachable.
  - assert (queue (run 1 shop_world) = [shirts; pants]) as -> by (vm_compute; reflexivity).
    right. by left.
Defined.

(** X8, witness: a run with two failed visits. *)
Lemma every_visit_closes_or_reports_witness :
  let s := run 3 broken_link_world in
  length (visit_order (log s)) = length (closed (log s)) + length (errors (log s)) /\
  length (closed (log s)) <= length (opened (log s)) /\
  length (opened (log s)) <= length (visit_order (log s)).
Proof.
  apply (every_visit_closes_or_reports sha parse START_URL (run 3 broken_link_world)).
  apply iterate_reachable.
Defined.

(** X9, witness: the fingerprint of the home page of the shop. *)
Lemma visited_fingerprints_were_rendered_witness :
  exists url, url ∈ navigations (log (run 1 shop_world)) /\
              hash_url sha url = hash_url sha home.
Proof.
  apply (visited_fingerprints_were_rendered sha parse START_URL (run 1 shop_world)).
  - apply iterate_reachable.
  - assert (visited (run 1 shop_world) = {[hash_url sha home]}) as ->
      by (vm_compute; reflexivity).
    by apply elem_of_singleton.
Defined.

(** X10, witness: [shirts] is the second page processed in the shop. *)
Lemma only_in_scope_urls_processed_witness :
  shirts = START_URL \/ in_scope parse START_URL shirts.
Proof.
  apply (only_in_scope_urls_processed sha parse START_URL (run 2 shop_world) shirts).
  - apply iterate_reachable.
  - assert (visit_order (log (run 2 shop_world)) = [home; shirts]) as ->
      by (vm_compute; reflexivity).
    right. by left.
Defined.

(** X11, witness. *)
Lemma sanitize_folder_name_is_a_name_witness :
  "collections_shirts" <> EmptyString /\ PyStr.contains "/" "collections_shirts" = false.
Proof.
  apply (sanitize_folder_name_is_a_name parse shirts "collections_shirts").
  vm_compute. reflexivity.
Defined.

(** X12, witness: "/collections/shirts" and "/collections_shirts". *)
Lemma sanitize_folder_name_collides_witness :
  sanitize_folder_name parse "https://www.burgerbaeclothing.com/collections_shirts" =
  Some "collections_shirts".
Proof.
  apply (sanitize_folder_name_collides parse shirts
           "https://www.burgerbaeclothing.com/collections_shirts"
           (mkParseResult "https" "www.burgerbaeclothing.com" "/collections_shirts" "" "" "")
           "collections_shirts"); vm_compute; reflexivity.
Defined.

(** X13, witness. *)
Lemma html_file_path_of_url_witness :
  PosixPath.join OUTPUT_ROOT "collections_shirts" =
    os_path_join OUTPUT_ROOT "collections_shirts" /\
  html_file_path (PosixPath.join OUTPUT_ROOT "collections_shirts") =
    "burgerbae_mapped2/collections_shirts/collections_shirts.html".
Proof.
  apply (html_file_path_of_url parse shirts "collections_shirts").
  vm_compute. reflexivity.
Defined.

(** X14, witness: three pages of the shop. *)
Lemma is_internal_link_symmetric_transitive_witness :
  is_internal_link parse home shirts = is_internal_link parse shirts home /\
  is_internal_link parse home polo = Some true.
Proof.
  destruct (is_internal_link_symmetric_transitive parse home shirts polo) as [Hsym Htrans].
  split; [exact Hsym|]. apply Htrans; vm_compute; reflexivity.
Defined.

(** X15, witness: the anchors of the home page of the shop. *)
Lemma internal_links_is_filter_witness :
  [shirts; pants] =
  filter (fun l => is_internal_link parse START_URL l = Some true)
    [shirts; elsewhere; pants].
Proof.
  apply (internal_links_is_filter parse START_URL [shirts; elsewhere; pants]).
  vm_compute. reflexivity.
Defined.

(** X20, witness: with two labels, [polo] has none and [home] has one. *)
Lemma top_nodes_most_connected_witness :
  Draw.degree shop_edges polo <= Draw.degree shop_edges home.
Proof.
  assert (Draw.top_nodes shop_edges 2 = [home; shirts]) as Htop
    by (vm_compute; reflexivity).
  apply (DrawFacts.top_nodes_most_connected shop_edges 2 home polo).
  - rewrite Htop. by left.
  - assert (Draw.nodes shop_edges = [home; shirts; pants; polo]) as ->
      by (vm_compute; reflexivity).
    do 3 right. by left.
  - rewrite Htop. intros [H|H]%elem_of_cons; [discriminate H|].
    apply list_elem_of_singleton in H. discriminate H.
Defined.

(** X22, witness: the home page of the shop. *)
Lemma processed_page_trace_witness :
  exists name,
    sanitize_folder_name parse home = Some name /\
    log (fst (loop_body sha parse START_URL (shop_world 0) (init START_URL))) =
      log (init START_URL) ++
      [Visiting home; Opened home; Navigate home] ++
      (if raises (shop_world 0 home) WaitForLoadState then [IdleTimeout] else []) ++
      [SavedHtml (os_path_join OUTPUT_ROOT name);
       CsvRows home (img_src (shop_world 0 home)) (a_href (shop_world 0 home))] ++
      [if raises (shop_world 0 home) Close then ErrorVisiting home else Closed home].
Proof.
  apply (processed_page_trace sha parse START_URL (shop_world 0) (init START_URL) home []).
  - reflexivity.
  - apply not_elem_of_empty.
  - vm_compute. reflexivity.
Defined.

End MoreRuns.
